(** * srpc metric variables ([src/var/rpc_var.h]): a shallow embedding

    The header defines the metric-variable hierarchy ([RPCVar], [GaugeVar],
    and the declarations of the counter, histogram and summary kinds), the
    per-thread registry [RPCVarLocal], the process-wide registry
    [RPCVarGlobal] and the visitor interface [RPCVarCollector].

    Conventions of the embedding:
    - a C++ [double] is an IEEE-754 binary64 value, [spec_float] with the
      operations of [SpecFloat] at precision 53 and [emax] 1024 (round to
      nearest, ties to even);
    - an object is its address together with its state; member functions
      are state transformers, and a member function that returns a value
      returns a pair;
    - [std::mutex] only serialises concurrent callers: a member function
      that locks on entry and unlocks on exit is one atomic state
      transformer. *)

From Stdlib Require Import ZArith Bool List Lia Zpower.
From Stdlib Require Import Floats.SpecFloat.
From stdpp Require Import base gmap strings list fin_maps.

Local Open Scope Z_scope.

(** ** C++ [double] *)

Module Double.

Definition prec : Z := 53.
Definition emax : Z := 1024.

Definition double : Type := spec_float.

(** [x + y] and [x - y] on [double]. *)
Definition add (x y : double) : double := SFadd prec emax x y.
Definition sub (x y : double) : double := SFsub prec emax x y.

(** Conversion of an integer constant to [double] (correctly rounded). *)
Definition of_Z (n : Z) : double := binary_normalize prec emax n 0 false.

(** [m * 2^e] as a [double], for literals such as [3.5 = 7 * 2^-1]. *)
Definition of_scaled (m e : Z) : double := binary_normalize prec emax m e false.

(** The integer a [double] denotes, when it denotes one. *)
Definition to_Z (x : double) : option Z :=
  match x with
  | S754_zero _ => Some 0
  | S754_finite s m e =>
      let v := if s then Z.neg m else Z.pos m in
      if 0 <=? e then Some (v * 2 ^ e)
      else if Z.pos m mod 2 ^ (- e) =? 0 then Some (v / 2 ^ (- e))
      else None
  | _ => None
  end.

End Double.

Abbreviation double := Double.double.

(** Addresses of objects ([RPCVar *], [RPCVarLocal *]). *)
Definition addr : Type := positive.

(** [sizeof(double)] on the platforms srpc builds for. *)
Definition sizeof_double : N := 8%N.

(** ** [enum RPCVarType] and [type_string] *)

Inductive RPCVarType : Type :=
  | VAR_GAUGE
  | VAR_COUNTER
  | VAR_HISTOGRAM
  | VAR_SUMMARY.

Definition RPCVarType_value (t : RPCVarType) : Z :=
  match t with
  | VAR_GAUGE => 0
  | VAR_COUNTER => 1
  | VAR_HISTOGRAM => 2
  | VAR_SUMMARY => 3
  end.

Definition type_string (t : RPCVarType) : string :=
  match t with
  | VAR_GAUGE => "gauge"
  | VAR_COUNTER => "counter"
  | VAR_HISTOGRAM => "histogram"
  | VAR_SUMMARY => "summary"
  end.

(** ** [class RPCVarCollector]: the visitor interface

    Every method is pure virtual; an implementation is a type of collector
    states with one transformer per method. *)

Class RPCVarCollector (C : Type) : Type := {
  collect_gauge : addr → double → C → C;
  collect_counter_each : addr → string → double → C → C;
  collect_histogram_begin : addr → C → C;
  collect_histogram_each : addr → double → N → C → C;
  collect_histogram_end : addr → double → N → C → C;
  collect_summary_begin : addr → C → C;
  collect_summary_each : addr → double → double → C → C;
  collect_summary_end : addr → double → N → C → C
}.

(** A collector that records every call it receives, in order. *)
Inductive collector_call : Type :=
  | Call_gauge (gauge : addr) (data : double)
  | Call_counter_each (counter : addr) (label : string) (data : double)
  | Call_histogram_begin (histogram : addr)
  | Call_histogram_each (histogram : addr) (bucket_boudary : double)
      (current_count : N)
  | Call_histogram_end (histogram : addr) (sum : double) (count : N)
  | Call_summary_begin (summary : addr)
  | Call_summary_each (summary : addr) (quantile quantile_out : double)
  | Call_summary_end (summary : addr) (sum : double) (count : N).

Definition call_log : Type := list collector_call.

#[export] Instance recording_collector : RPCVarCollector call_log := {
  collect_gauge g d log := log ++ [Call_gauge g d];
  collect_counter_each c l d log := log ++ [Call_counter_each c l d];
  collect_histogram_begin h log := log ++ [Call_histogram_begin h];
  collect_histogram_each h b n log := log ++ [Call_histogram_each h b n];
  collect_histogram_end h s n log := log ++ [Call_histogram_end h s n];
  collect_summary_begin s log := log ++ [Call_summary_begin s];
  collect_summary_each s q o log := log ++ [Call_summary_each s q o];
  collect_summary_end s x n log := log ++ [Call_summary_end s x n]
}.

(** ** [class RPCVar]: the base of every metric variable *)

Module RPCVar.

Record t : Type := mk {
  name : string;
  help : string;
  type : RPCVarType
}.

(** [RPCVar(name, help, type)]; the call to [format_name] is commented
    out in the source. *)
Definition ctor (name help : string) (type : RPCVarType) : t :=
  {| name := name; help := help; type := type |}.

Definition get_name (v : t) : string := name v.
Definition get_help (v : t) : string := help v.
Definition get_type (v : t) : RPCVarType := type v.
Definition get_type_str (v : t) : string := type_string (type v).

End RPCVar.

(** ** [class GaugeVar : public RPCVar] *)

Module GaugeVar.

Record t : Type := mk {
  base : RPCVar.t;
  data : double
}.

(** [GaugeVar(name, help) : RPCVar(name, help, VAR_GAUGE) { data = 0; }] *)
Definition ctor (name help : string) : t :=
  {| base := RPCVar.ctor name help VAR_GAUGE; data := Double.of_Z 0 |}.

(** Inherited accessors. *)
Definition get_name (g : t) : string := RPCVar.get_name (base g).
Definition get_help (g : t) : string := RPCVar.get_help (base g).
Definition get_type (g : t) : RPCVarType := RPCVar.get_type (base g).

(** [++this->data] *)
Definition increase (g : t) : t :=
  {| base := base g; data := Double.add (data g) (Double.of_Z 1) |}.

(** [--this->data] *)
Definition decrease (g : t) : t :=
  {| base := base g; data := Double.sub (data g) (Double.of_Z 1) |}.

Definition get_size (g : t) : N := sizeof_double.

(** [get_data] returns [&this->data]; the embedding passes the [double]
    that the pointer designates. *)
Definition get_data (g : t) : double := data g.

Definition get (g : t) : double := data g.

Definition set (var : double) (g : t) : t :=
  {| base := base g; data := var |}.

(** [reduce(ptr, sz)] adds the [double] read through [ptr] to [this->data]
    and returns [true].  [pointee] is that [double]; the body never reads
    [sz]. *)
Definition reduce (pointee : double) (sz : N) (g : t) : bool * t :=
  (true, {| base := base g; data := Double.add (data g) pointee |}).

(** [collect(collector)]: [collector->collect_gauge(this, this->data)]. *)
Definition collect {C : Type} `{RPCVarCollector C}
    (this : addr) (g : t) (collector : C) : C :=
  collect_gauge this (data g) collector.

(** A call of one of the two counting members, and a sequence of them
    applied to one gauge in program order. *)
Inductive call : Type :=
  | Increase
  | Decrease.

Definition apply_call (g : t) (c : call) : t :=
  match c with
  | Increase => increase g
  | Decrease => decrease g
  end.

Definition apply_calls (cs : list call) (g : t) : t :=
  fold_left apply_call cs g.

(** How many calls of a sequence are [increase()], resp. [decrease()]. *)
Fixpoint count_increase (cs : list call) : Z :=
  match cs with
  | [] => 0
  | Increase :: cs => 1 + count_increase cs
  | Decrease :: cs => count_increase cs
  end.

Fixpoint count_decrease (cs : list call) : Z :=
  match cs with
  | [] => 0
  | Increase :: cs => count_decrease cs
  | Decrease :: cs => 1 + count_decrease cs
  end.

(** Every public member of a gauge, for sequences of arbitrary use.  The
    [const] members ([get], [get_size], [get_data], [get_name], [get_type])
    leave the object as it is and have no entry. *)
Inductive op : Type :=
  | Op_increase
  | Op_decrease
  | Op_set (var : double)
  | Op_reduce (pointee : double) (sz : N)
  | Op_collect.

End GaugeVar.

(** ** [class RPCVarGlobal]: the process-wide list of thread registries *)

Module RPCVarGlobal.

Record t : Type := mk {
  local_vars : list addr
}.

(** [static RPCVarGlobal kInstance;] with the empty constructor. *)
Definition kInstance : t := {| local_vars := [] |}.

(** [add(var)]: [local_vars.push_back(var)] under the mutex. *)
Definition add (var : addr) (g : t) : t :=
  {| local_vars := local_vars g ++ [var] |}.

End RPCVarGlobal.

(** ** [class RPCVarLocal]: the registry of one thread *)

Module RPCVarLocal.

Record t : Type := mk {
  vars : gmap string addr
}.

(** [std::unordered_map::insert]: the pair goes in when no element has its
    key, and the map is left alone otherwise. *)
Definition unordered_map_insert (k : string) (v : addr)
    (m : gmap string addr) : gmap string addr :=
  match m !! k with
  | None => <[k := v]> m
  | Some _ => m
  end.

(** [add(name, var)]: under the mutex, [it = vars.find(name)] and, when
    [it == vars.end()], [vars.insert(make_pair(name, var))]. *)
Definition add (name : string) (var : addr) (l : t) : t :=
  match vars l !! name with
  | None => {| vars := unordered_map_insert name var (vars l) |}
  | Some _ => l
  end.

(** [RPCVarLocal() { RPCVarGlobal::get_instance()->add(this); }]: the
    object built at address [this] (its map default-constructed) and the
    global registry after the call. *)
Definition ctor (this : addr) (global : RPCVarGlobal.t)
    : t * RPCVarGlobal.t :=
  ({| vars := ∅ |}, RPCVarGlobal.add this global).

End RPCVarLocal.

(** ** The process: the global singleton and the live thread registries *)

Record process : Type := mk_process {
  global : RPCVarGlobal.t;
  locals : gmap addr RPCVarLocal.t
}.

Definition process_start : process :=
  {| global := RPCVarGlobal.kInstance; locals := ∅ |}.

(** A thread's first [RPCVarLocal::get_instance()] constructs its
    [thread_local kInstance], at address [this]. *)
Definition construct_local (p : process) (this : addr) : process :=
  let '(l, g) := RPCVarLocal.ctor this (global p) in
  {| global := g; locals := <[this := l]> (locals p) |}.

Definition construct_locals (ths : list addr) (p : process) : process :=
  fold_left construct_local ths p.

(** ** One gauge in use by a thread

    The gauge at address [this], the collector it is shown to and the
    registry of the thread.  A step is one public operation that involves
    the gauge: one of its own members, or [RPCVarLocal::add(name, this)]. *)

Record gauge_context : Type := mk_context {
  ctx_gauge : GaugeVar.t;
  ctx_collector : call_log;
  ctx_local : RPCVarLocal.t
}.

Inductive gauge_step : Type :=
  | Step_member (o : GaugeVar.op)
  | Step_add (name : string).

Definition run_step (this : addr) (c : gauge_context) (s : gauge_step)
    : gauge_context :=
  let g := ctx_gauge c in
  match s with
  | Step_member GaugeVar.Op_increase =>
      {| ctx_gauge := GaugeVar.increase g;
         ctx_collector := ctx_collector c; ctx_local := ctx_local c |}
  | Step_member GaugeVar.Op_decrease =>
      {| ctx_gauge := GaugeVar.decrease g;
         ctx_collector := ctx_collector c; ctx_local := ctx_local c |}
  | Step_member (GaugeVar.Op_set var) =>
      {| ctx_gauge := GaugeVar.set var g;
         ctx_collector := ctx_collector c; ctx_local := ctx_local c |}
  | Step_member (GaugeVar.Op_reduce pointee sz) =>
      {| ctx_gauge := snd (GaugeVar.reduce pointee sz g);
         ctx_collector := ctx_collector c; ctx_local := ctx_local c |}
  | Step_member GaugeVar.Op_collect =>
      {| ctx_gauge := g;
         ctx_collector := GaugeVar.collect this g (ctx_collector c);
         ctx_local := ctx_local c |}
  | Step_add name =>
      {| ctx_gauge := g; ctx_collector := ctx_collector c;
         ctx_local := RPCVarLocal.add name this (ctx_local c) |}
  end.

Definition run_steps (this : addr) (ss : list gauge_step)
    (c : gauge_context) : gauge_context :=
  fold_left (run_step this) ss c.

(** ** Aggregation of per-thread gauges

    A shard is the gauge of one thread: constructed, then driven by that
    thread's calls.  Aggregation folds the shards into an accumulator with
    [reduce(g->get_data(), g->get_size())], in list order. *)

Record shard : Type := mk_shard {
  shard_name : string;
  shard_help : string;
  shard_calls : list GaugeVar.call
}.

Definition shard_gauge (s : shard) : GaugeVar.t :=
  GaugeVar.apply_calls (shard_calls s)
    (GaugeVar.ctor (shard_name s) (shard_help s)).

Definition reduce_into (acc g : GaugeVar.t) : GaugeVar.t :=
  snd (GaugeVar.reduce (GaugeVar.get_data g) (GaugeVar.get_size g) acc).

Definition reduce_all (acc : GaugeVar.t) (gs : list GaugeVar.t)
    : GaugeVar.t :=
  fold_left reduce_into gs acc.

Definition all_calls (ss : list shard) : list GaugeVar.call :=
  concat (map shard_calls ss).

(** ** Sequences of operations, for statements about composition *)

(** [add(name, var)] for each pair of a list, in list order. *)
Definition register_all (es : list (string * addr)) (l : RPCVarLocal.t)
    : RPCVarLocal.t :=
  fold_left (fun l e => RPCVarLocal.add (fst e) (snd e) l) es l.

(** The variable of the first pair of a list that carries [name]. *)
Fixpoint first_binding (name : string) (es : list (string * addr))
    : option addr :=
  match es with
  | [] => None
  | e :: es =>
      if decide (fst e = name) then Some (snd e) else first_binding name es
  end.

Definition is_collect (s : gauge_step) : bool :=
  match s with
  | Step_member GaugeVar.Op_collect => true
  | _ => false
  end.

Definition is_set (s : gauge_step) : bool :=
  match s with
  | Step_member (GaugeVar.Op_set _) => true
  | _ => false
  end.

(** The sum of a list of integers, and of their magnitudes. *)
Definition Zsum (ws : list Z) : Z := fold_right Z.add 0 ws.

Definition Zsum_abs (ws : list Z) : Z :=
  fold_right (fun w a => Z.abs w + a) 0 ws.

(** What a zero-valued accumulator holds after one [reduce] of a gauge
    holding [x]: [x] itself, with the sign of a negative zero dropped. *)
Definition drop_zero_sign (x : double) : double :=
  match x with
  | S754_zero _ => S754_zero false
  | _ => x
  end.

(** ** The other three kinds

    The header declares [CounterVar], [HistogramVar] and [SummaryVar] with
    their data members, their inline accessors and, for the counter, its
    constructor; those are embedded from the source.  The bodies of their
    [add], [observe], [reduce] and [collect] are not in the header: each
    is modelled from the spec, and says so. *)

(** [size_t] addition, on 64 bits. *)
Definition size_t_add (a b : N) : N := ((a + b) mod 2 ^ 64)%N.

Module CounterVar.

(** [std::unordered_map<std::string, GaugeVar *> data]: the children are
    owned by the counter and are held here by value. *)
Record t : Type := mk {
  base : RPCVar.t;
  data : gmap string GaugeVar.t
}.

(** [CounterVar(name, help) : RPCVar(name, help, VAR_COUNTER) { }] *)
Definition ctor (name help : string) : t :=
  {| base := RPCVar.ctor name help VAR_COUNTER; data := ∅ |}.

Definition get_name (c : t) : string := RPCVar.get_name (base c).
Definition get_type (c : t) : RPCVarType := RPCVar.get_type (base c).

(** [get_size() { return this->data.size(); }] *)
Definition get_size (c : t) : N := N.of_nat (size (data c)).

(** [get_data() { return &this->data; }]: the map the pointer designates. *)
Definition get_data (c : t) : gmap string GaugeVar.t := data c.

Section Children.

(** The spec does not say which name and help a child gauge carries. *)
Variables child_name child_help : string -> string.

(** Modelled from the spec: the body of [CounterVar::add(labels)], which
    is not in the source.  The spec keys the children by the canonical
    string of the label set, so that identical label sets collide to the
    same child: [add] returns the child of the label set, creating it as a
    zero-valued gauge when there is none.  [label_str] is the canonical
    string of [labels], the result of [label_to_str], whose format the
    spec leaves open. *)
Definition add (label_str : string) (c : t) : GaugeVar.t * t :=
  match data c !! label_str with
  | Some g => (g, c)
  | None =>
      let g := GaugeVar.ctor (child_name label_str) (child_help label_str) in
      (g, {| base := base c; data := <[label_str := g]> (data c) |})
  end.

End Children.

(** A member call on a child through the pointer [add] returned: the
    pointer designates the child inside the map. *)
Definition with_child (label_str : string) (f : GaugeVar.t -> GaugeVar.t)
    (c : t) : t :=
  {| base := base c; data := alter f label_str (data c) |}.

(** Modelled from the spec: the body of [CounterVar::reduce], which is not
    in the source.  The merge is per label set: the key spaces are united;
    for a key present in both, the other child is reduced into this one
    (the gauge merge); a key present in only one is carried through
    unchanged.  The spec names no incompatible shape for counters. *)
Definition reduce (pointee : gmap string GaugeVar.t) (sz : N) (c : t)
    : bool * t :=
  (true,
   {| base := base c;
      data := union_with (fun g h => Some (reduce_into g h)) (data c) pointee |}).

(** Modelled from the spec: the body of [CounterVar::collect], which is
    not in the source: one [collect_counter_each(this, label, value)] per
    label-set entry. *)
Definition collect {C : Type} `{RPCVarCollector C}
    (this : addr) (c : t) (collector : C) : C :=
  fold_left
    (fun col e => collect_counter_each this (fst e) (GaugeVar.get (snd e)) col)
    (map_to_list (data c)) collector.

(** The calls that change a counter or one of its children. *)
Inductive op : Type :=
  | Op_add (label_str : string)
  | Op_child_call (label_str : string) (c : GaugeVar.call)
  | Op_child_set (label_str : string) (var : double)
  | Op_reduce (pointee : gmap string GaugeVar.t) (sz : N).

Definition apply_op (child_name child_help : string -> string)
    (o : op) (c : t) : t :=
  match o with
  | Op_add label_str => snd (add child_name child_help label_str c)
  | Op_child_call label_str k =>
      with_child label_str (fun g => GaugeVar.apply_call g k) c
  | Op_child_set label_str var => with_child label_str (GaugeVar.set var) c
  | Op_reduce pointee sz => snd (reduce pointee sz c)
  end.

End CounterVar.

Module HistogramVar.

Record t : Type := mk {
  base : RPCVar.t;
  bucket_boundaries : list double;
  bucket_counts : list N;
  sum : double;
  count : N
}.

Definition get_name (h : t) : string := RPCVar.get_name (base h).
Definition get_type (h : t) : RPCVarType := RPCVar.get_type (base h).

(** [get_size() { return this->bucket_counts.size(); }] *)
Definition get_size (h : t) : N := N.of_nat (length (bucket_counts h)).

(** [get_data() { return this; }]: the histogram the pointer designates. *)
Definition get_data (h : t) : t := h.

Definition get_sum (h : t) : double := sum h.
Definition get_count (h : t) : N := count h.
Definition get_bucket_counts (h : t) : list N := bucket_counts h.

(** Modelled from the spec: the counts after one observation.  The counts
    are cumulative, [bucket_counts[i]] being the number of observations
    [<= boundaries[i]]: an observation adds one to every bucket whose
    boundary is not below it.  The boundaries are implicitly terminated by
    [+infinity]: a count that has no stored boundary counts every
    observation. *)
Fixpoint observe_counts (value : double) (bs : list double) (cs : list N)
    : list N :=
  match cs with
  | [] => []
  | n :: cs' =>
      match bs with
      | [] => size_t_add n 1 :: observe_counts value [] cs'
      | b :: bs' =>
          (if SFleb value b then size_t_add n 1 else n)
            :: observe_counts value bs' cs'
      end
  end.

(** Modelled from the spec: the body of [HistogramVar::observe], which is
    not in the source: the observation enters the cumulative counts, the
    running sum and the running count. *)
Definition observe (value : double) (h : t) : t :=
  {| base := base h;
     bucket_boundaries := bucket_boundaries h;
     bucket_counts :=
       observe_counts value (bucket_boundaries h) (bucket_counts h);
     sum := Double.add (sum h) value;
     count := size_t_add (count h) 1 |}.

(** Modelled from the spec: the body of [HistogramVar::reduce], which is
    not in the source.  A payload whose number of buckets does not match
    is refused before anything is changed; otherwise the bucket counts are
    added element-wise and the sums and counts are added. *)
Definition reduce (pointee : t) (sz : N) (h : t) : bool * t :=
  if (sz =? get_size h)%N && (get_size pointee =? get_size h)%N then
    (true,
     {| base := base h;
        bucket_boundaries := bucket_boundaries h;
        bucket_counts :=
          zip_with size_t_add (bucket_counts h) (bucket_counts pointee);
        sum := Double.add (sum h) (get_sum pointee);
        count := size_t_add (count h) (get_count pointee) |})
  else (false, h).

(** Modelled from the spec: the [each] calls of [HistogramVar::collect],
    one per bucket in ascending boundary order, with the bucket's boundary
    ([+infinity] for a count without stored boundary) and its cumulative
    count. *)
Fixpoint collect_buckets {C : Type} `{RPCVarCollector C}
    (this : addr) (bs : list double) (cs : list N) (collector : C) : C :=
  match cs with
  | [] => collector
  | n :: cs' =>
      match bs with
      | [] =>
          collect_buckets this [] cs'
            (collect_histogram_each this (S754_infinity false) n collector)
      | b :: bs' =>
          collect_buckets this bs' cs'
            (collect_histogram_each this b n collector)
      end
  end.

(** Modelled from the spec: the body of [HistogramVar::collect], which is
    not in the source: [begin], the [each] calls, then [end(sum, count)]. *)
Definition collect {C : Type} `{RPCVarCollector C}
    (this : addr) (h : t) (collector : C) : C :=
  collect_histogram_end this (sum h) (count h)
    (collect_buckets this (bucket_boundaries h) (bucket_counts h)
       (collect_histogram_begin this collector)).

Inductive op : Type :=
  | Op_observe (value : double)
  | Op_reduce (pointee : t) (sz : N).

Definition apply_op (o : op) (h : t) : t :=
  match o with
  | Op_observe value => observe value h
  | Op_reduce pointee sz => snd (reduce pointee sz h)
  end.

End HistogramVar.

Module SummaryVar.

(** Modelled from the spec: [struct Quantile] of
    [time_window_quantiles.h], which is not in the source: a requested
    quantile with its allowed error. *)
Record Quantile : Type := mk_quantile {
  quantile : double;
  error : double
}.

Section Estimator.

(** [TimeWindowQuantiles<double>] of [time_window_quantiles.h], which is
    not in the source: its states, its insertion of a value at a reading
    [now] of the clock, and its estimate of a quantile. *)
Variable TimeWindowQuantiles : Type.
Variable insert : Z -> double -> TimeWindowQuantiles -> TimeWindowQuantiles.
Variable get_quantile : Quantile -> TimeWindowQuantiles -> double.

Record t : Type := mk {
  base : RPCVar.t;
  quantiles : list Quantile;
  sum : double;
  count : N;
  quantile_size : N;
  max_age : Z;
  age_buckets : Z;
  quantile_values : TimeWindowQuantiles;
  quantile_out : list double
}.

Definition get_name (s : t) : string := RPCVar.get_name (base s).
Definition get_type (s : t) : RPCVarType := RPCVar.get_type (base s).

(** [get_size() { return this->quantiles.size(); }] *)
Definition get_size (s : t) : N := N.of_nat (length (quantiles s)).

(** [get_data() { return this; }]: the summary the pointer designates. *)
Definition get_data (s : t) : t := s.

Definition get_sum (s : t) : double := sum s.
Definition get_count (s : t) : N := count s.
Definition get_quantile_values (s : t) : TimeWindowQuantiles :=
  quantile_values s.

(** Modelled from the spec: the body of [SummaryVar::observe], which is
    not in the source: the value enters the running sum, the running
    count and the quantile estimator. *)
Definition observe (now : Z) (value : double) (s : t) : t :=
  {| base := base s;
     quantiles := quantiles s;
     sum := Double.add (sum s) value;
     count := size_t_add (count s) 1;
     quantile_size := quantile_size s;
     max_age := max_age s;
     age_buckets := age_buckets s;
     quantile_values := insert now value (quantile_values s);
     quantile_out := quantile_out s |}.

(** Modelled from the spec: the body of [SummaryVar::reduce], which is not
    in the source.  A payload of another shape is refused before anything
    is changed; otherwise the sums and the counts are added, and the
    quantile estimator is not merged. *)
Definition reduce (pointee : t) (sz : N) (s : t) : bool * t :=
  if (sz =? get_size s)%N then
    (true,
     {| base := base s;
        quantiles := quantiles s;
        sum := Double.add (sum s) (get_sum pointee);
        count := size_t_add (count s) (get_count pointee);
        quantile_size := quantile_size s;
        max_age := max_age s;
        age_buckets := age_buckets s;
        quantile_values := quantile_values s;
        quantile_out := quantile_out s |})
  else (false, s).

(** Modelled from the spec: the body of [SummaryVar::collect], which is
    not in the source: [begin], one [each(quantile, estimate)] per
    configured quantile, in the order of [quantiles] (which the spec has
    ascending), then [end(sum, count)]. *)
Definition collect {C : Type} `{RPCVarCollector C}
    (this : addr) (s : t) (collector : C) : C :=
  collect_summary_end this (sum s) (count s)
    (fold_left
       (fun col q =>
          collect_summary_each this (quantile q)
            (get_quantile q (quantile_values s)) col)
       (quantiles s) (collect_summary_begin this collector)).

Inductive op : Type :=
  | Op_observe (now : Z) (value : double)
  | Op_reduce (pointee : t) (sz : N).

Definition apply_op (o : op) (s : t) : t :=
  match o with
  | Op_observe now value => observe now value s
  | Op_reduce pointee sz => snd (reduce pointee sz s)
  end.

End Estimator.

End SummaryVar.

(** ** A metric variable of any kind in use by a thread

    The variable at address [this], the collector it is shown to and the
    registry of the thread.  A step is a member call that changes the
    variable, a [collect], or [RPCVarLocal::add(name, this)]. *)

Record var_context (V : Type) : Type := mk_var_context {
  var_state : V;
  var_collector : call_log;
  var_local : RPCVarLocal.t
}.

Arguments mk_var_context {V} _ _ _.
Arguments var_state {V} _.
Arguments var_collector {V} _.
Arguments var_local {V} _.

Inductive var_step (O : Type) : Type :=
  | Var_member (o : O)
  | Var_collect
  | Var_add (name : string).

Arguments Var_member {O} _.
Arguments Var_collect {O}.
Arguments Var_add {O} _.

Definition run_var_step {V O : Type}
    (member : O -> V -> V) (collect : addr -> V -> call_log -> call_log)
    (this : addr) (c : var_context V) (s : var_step O) : var_context V :=
  match s with
  | Var_member o =>
      {| var_state := member o (var_state c);
         var_collector := var_collector c; var_local := var_local c |}
  | Var_collect =>
      {| var_state := var_state c;
         var_collector := collect this (var_state c) (var_collector c);
         var_local := var_local c |}
  | Var_add name =>
      {| var_state := var_state c; var_collector := var_collector c;
         var_local := RPCVarLocal.add name this (var_local c) |}
  end.

Definition run_var_steps {V O : Type}
    (member : O -> V -> V) (collect : addr -> V -> call_log -> call_log)
    (this : addr) (ss : list (var_step O)) (c : var_context V)
    : var_context V :=
  fold_left (run_var_step member collect this) ss c.

(** * Facts about [double] arithmetic on integers

    Integers of magnitude at most [2^53] are exactly representable, and sums
    and differences of such integers that stay in that range are computed
    without rounding.  The proofs follow the rounding pipeline of
    [SpecFloat]: alignment ([shl_align]), truncation ([shr]) and the choice
    of the target exponent ([fexp]). *)

Module DoubleFacts.

Import Double.

(** [digits2_pos] is the bit length. *)
Lemma digits2_pos_size p : digits2_pos p = Pos.size p.
Proof. induction p; simpl; congruence. Qed.

(** The binary iterator of [SpecFloat] is iteration [Pos.to_nat n] times. *)
Lemma iter_pos_nat {A} (f : A -> A) n x :
  SpecFloat.iter_pos f n x = Nat.iter (Pos.to_nat n) f x.
Proof.
  revert x; induction n as [n IH|n IH|]; intros x; cbn [SpecFloat.iter_pos].
  - rewrite !IH, Pos2Nat.inj_xI.
    replace (S (2 * Pos.to_nat n))%nat with (Pos.to_nat n + (Pos.to_nat n + 1))%nat by lia.
    rewrite !Nat.iter_add. reflexivity.
  - rewrite !IH, Pos2Nat.inj_xO.
    replace (2 * Pos.to_nat n)%nat with (Pos.to_nat n + Pos.to_nat n)%nat by lia.
    rewrite Nat.iter_add. reflexivity.
  - reflexivity.
Qed.

(** Shifting left by [j] adds [j] bits. *)
Lemma digits2_shift_nat j p :
  Z.pos (digits2_pos (shift_nat j p)) = Z.pos (digits2_pos p) + Z.of_nat j.
Proof.
  induction j as [|j IH]; simpl shift_nat.
  - simpl. lia.
  - cbn [digits2_pos]. rewrite Pos2Z.inj_succ, IH. lia.
Qed.

(** Shifting right the [k] zero bits of [q * 2^k] loses nothing: the round
    and sticky bits stay clear. *)
Lemma shr_shift_nat k q :
  Nat.iter k shr_1 (Build_shr_record (Z.pos (shift_nat k q)) false false)
  = Build_shr_record (Z.pos q) false false.
Proof.
  induction k as [|k IH]; [reflexivity|].
  rewrite Nat.iter_succ_r. simpl shift_nat. cbn [shr_1 orb]. exact IH.
Qed.

Lemma shift_nat_add i j p : shift_nat (i + j) p = shift_nat i (shift_nat j p).
Proof. induction i; simpl; congruence. Qed.

Lemma digits2_pos_bound q :
  Z.pos q < 2 ^ 53 -> Z.pos (digits2_pos q) <= 53.
Proof.
  intros H. rewrite digits2_pos_size.
  destruct (Z.le_gt_cases (Z.pos (Pos.size q)) 53) as [|Hgt]; [assumption|exfalso].
  pose proof (Pos.size_le q) as Hle.
  assert (2 ^ 54 <= 2 ^ Z.pos (Pos.size q)) by (apply Z.pow_le_mono_r; lia).
  assert (Z.pos (2 ^ Pos.size q) <= Z.pos q~0) by (apply Pos2Z.pos_le_pos; exact Hle).
  rewrite Pos2Z.inj_pow in *. change (Z.pos 2) with 2 in *. 
  rewrite Pos2Z.inj_xO in *. 
  change (2^54) with (2 * 2^53) in *. lia.
Qed.

Lemma shr_nat mrs e (r : nat) :
  shr mrs e (Z.of_nat r) = (Nat.iter r shr_1 mrs, e + Z.of_nat r).
Proof.
  destruct r as [|r].
  - simpl. rewrite Z.add_0_r. reflexivity.
  - change (Z.of_nat (S r)) with (Z.pos (Pos.of_succ_nat r)). cbn [shr].
    rewrite iter_pos_nat, SuccNat2Pos.id_succ. reflexivity.
Qed.

(** Rounding a mantissa whose [r] excess bits are all zero is exact. *)
Lemma binary_round_aux_exact s q (r : nat) e :
  fexp prec emax (Z.pos (digits2_pos q) + Z.of_nat r + e) = e + Z.of_nat r ->
  e + Z.of_nat r <= emax - prec ->
  binary_round_aux prec emax s (Z.pos (shift_nat r q)) e loc_Exact
  = S754_finite s q (e + Z.of_nat r).
Proof.
  intros Hf Hmax. unfold binary_round_aux, shr_fexp.
  cbn [Zdigits2 shr_record_of_loc].
  rewrite digits2_shift_nat, Hf.
  replace (e + Z.of_nat r - e) with (Z.of_nat r) by lia.
  rewrite shr_nat, shr_shift_nat.
  cbn [shr_m loc_of_shr_record round_nearest_even Zdigits2 shr_record_of_loc].
  replace (Z.pos (digits2_pos q) + (e + Z.of_nat r))
    with (Z.pos (digits2_pos q) + Z.of_nat r + e) by lia.
  rewrite Hf, Z.sub_diag. cbn [shr shr_m].
  apply Z.leb_le in Hmax. rewrite Hmax. reflexivity.
Qed.

Lemma shl_align_nat m e (k : nat) :
  shl_align m e (e - Z.of_nat k) = (shift_nat k m, e - Z.of_nat k).
Proof.
  unfold shl_align. replace (e - Z.of_nat k - e) with (- Z.of_nat k) by lia.
  destruct k as [|k].
  - cbn. f_equal. lia.
  - change (Z.of_nat (S k)) with (Z.pos (Pos.of_succ_nat k)). change (- Z.pos (Pos.of_succ_nat k)) with (Z.neg (Pos.of_succ_nat k)).
    cbv iota.
    change (PosDef.Pos.iter xO m (Pos.of_succ_nat k)) with (shift_pos (Pos.of_succ_nat k) m).
    rewrite shift_pos_nat, SuccNat2Pos.id_succ. reflexivity.
Qed.

(** Rounding [q * 2^j] at exponent [e] is exact whenever the target exponent
    does not exceed [e + j]. *)
Lemma binary_round_exact s q (j : nat) e :
  let t := fexp prec emax (Z.pos (digits2_pos q) + Z.of_nat j + e) in
  t <= e + Z.of_nat j -> t <= emax - prec ->
  binary_round prec emax s (shift_nat j q) e
  = S754_finite s (shift_nat (Z.to_nat (e + Z.of_nat j - t)) q) t.
Proof.
  intros t Ht Hmax. unfold binary_round.
  rewrite digits2_shift_nat. fold t.
  destruct (Z.le_gt_cases t e) as [Hle|Hgt].
  - (* align to the left by [e - t] *)
    replace t with (e - Z.of_nat (Z.to_nat (e - t))) at 1 by lia.
    rewrite shl_align_nat, <- shift_nat_add.
    replace (e - Z.of_nat (Z.to_nat (e - t))) with t by lia.
    replace (Z.to_nat (e + Z.of_nat j - t)) with (Z.to_nat (e - t) + j)%nat by lia.
    pose proof (binary_round_aux_exact s (shift_nat (Z.to_nat (e - t) + j) q) 0 t) as H.
    cbn [shift_nat nat_rect] in H. change (Z.of_nat 0) with 0 in H.
    rewrite !Z.add_0_r in H. apply H; [|assumption].
    rewrite digits2_shift_nat. subst t. f_equal. lia.
  - (* [t > e]: the low [t - e] bits are zero *)
    unfold shl_align. destruct (t - e) eqn:E; try lia.
    replace j with (Z.to_nat (t - e) + Z.to_nat (e + Z.of_nat j - t))%nat at 1 by lia.
    rewrite shift_nat_add.
    pose proof (binary_round_aux_exact s (shift_nat (Z.to_nat (e + Z.of_nat j - t)) q)
                  (Z.to_nat (t - e)) e) as H.
    replace (e + Z.of_nat (Z.to_nat (t - e))) with t in H by lia.
    apply H; [|assumption].
    rewrite digits2_shift_nat. subst t. f_equal. lia.
Qed.

(** Two representations [q * 2^j, e - j] and [q, e] of one value round alike. *)
Lemma binary_round_shift s q (j : nat) e :
  fexp prec emax (Z.pos (digits2_pos q) + e) <= e ->
  fexp prec emax (Z.pos (digits2_pos q) + e) <= emax - prec ->
  binary_round prec emax s (shift_nat j q) (e - Z.of_nat j)
  = binary_round prec emax s q e.
Proof.
  intros Ht Hmax.
  pose proof (binary_round_exact s q j (e - Z.of_nat j)) as H1.
  pose proof (binary_round_exact s q 0 e) as H2.
  cbn [shift_nat nat_rect] in H2. change (Z.of_nat 0) with 0 in H2.
  cbv zeta in H1, H2.
  replace (Z.pos (digits2_pos q) + Z.of_nat j + (e - Z.of_nat j))
    with (Z.pos (digits2_pos q) + e) in H1 by lia.
  replace (Z.pos (digits2_pos q) + 0 + e)
    with (Z.pos (digits2_pos q) + e) in H2 by lia.
  rewrite H1, H2 by lia. do 2 f_equal. lia.
Qed.

Lemma pos_shift_eq ps pn (j : nat) k :
  0 <= k -> Z.pos ps * 2 ^ k = Z.pos pn * 2 ^ (k + Z.of_nat j) ->
  ps = shift_nat j pn.
Proof.
  intros Hk H. apply Pos2Z.inj. rewrite shift_nat_correct, Zpower_nat_Z.
  rewrite Z.pow_add_r in H by lia.
  apply (Z.mul_cancel_r _ _ (2 ^ k)); [apply Z.pow_nonzero; lia|].
  rewrite H. ring.
Qed.

Lemma fexp_small d e :
  d <= 53 -> -1074 <= e -> fexp prec emax (d + e) <= e.
Proof. unfold fexp, emin, prec, emax. lia. Qed.

Lemma fexp_range d e :
  d <= 53 -> e <= 971 -> fexp prec emax (d + e) <= emax - prec.
Proof. unfold fexp, emin, prec, emax. lia. Qed.

Lemma digits2_pos_le q : Z.pos q <= 2 ^ 52 -> Z.pos (digits2_pos q) <= 53.
Proof.
  intros H. destruct (Z.eq_dec (Z.pos q) (2 ^ 52)) as [E|E].
  - apply Pos2Z.inj in E. subst q. vm_compute. discriminate.
  - apply digits2_pos_bound. change (2 ^ 53) with (2 * 2 ^ 52). lia.
Qed.

(** A mantissa [ps] at exponent [ez] that denotes the integer [pn] rounds to
    the same [double] as [pn] itself, for [pn <= 2^53]. *)
Lemma binary_round_repr s ps pn ez :
  -52 <= ez <= 1 -> Z.pos pn <= 2 ^ 53 ->
  Z.pos ps * 2 ^ (ez + 52) = Z.pos pn * 2 ^ 52 ->
  binary_round prec emax s ps ez = binary_round prec emax s pn 0.
Proof.
  intros Hez Hn Hv.
  destruct (Z.eq_dec ez 1) as [->|Hez1].
  - (* both operands had exponent 1 *)
    assert (pn = shift_nat 1 ps) as ->.
    { apply (pos_shift_eq pn ps 1 52); [lia|]. rewrite <- Hv. reflexivity. }
    assert (Z.pos ps <= 2 ^ 52).
    { rewrite shift_nat_correct in Hn. change (Zpower_nat 2 1) with 2 in Hn.
      change (2 ^ 53) with (2 * 2 ^ 52) in Hn. lia. }
    pose proof (digits2_pos_le ps H) as Hd.
    symmetry. apply (binary_round_shift s ps 1 1).
    + apply fexp_small; lia.
    + apply fexp_range; lia.
  - destruct (Z.eq_dec (Z.pos pn) (2 ^ 53)) as [E|E].
    + (* the sum is exactly [2^53] *)
      assert (pn = shift_nat 1 (2 ^ 52)%positive) as ->.
      { apply Pos2Z.inj. rewrite E. reflexivity. }
      assert (ps = shift_nat (Z.to_nat (1 - ez)) (2 ^ 52)%positive) as ->.
      { apply (pos_shift_eq _ _ _ (ez + 52)); [lia|]. rewrite Hv, E.
        replace (ez + 52 + Z.of_nat (Z.to_nat (1 - ez))) with 53 by lia.
        reflexivity. }
      assert (Hd : Z.pos (digits2_pos (2 ^ 52)%positive) <= 53)
        by (vm_compute; discriminate).
      transitivity (binary_round prec emax s (2 ^ 52)%positive 1).
      * replace ez with (1 - Z.of_nat (Z.to_nat (1 - ez))) at 2 by lia.
        apply binary_round_shift; [apply fexp_small | apply fexp_range]; lia.
      * symmetry. apply (binary_round_shift s (2 ^ 52)%positive 1 1);
          [apply fexp_small | apply fexp_range]; lia.
    + assert (Hd : Z.pos (digits2_pos pn) <= 53) by (apply digits2_pos_bound; lia).
      assert (ps = shift_nat (Z.to_nat (- ez)) pn) as ->.
      { apply (pos_shift_eq _ _ _ (ez + 52)); [lia|]. rewrite Hv.
        f_equal. f_equal. lia. }
      replace ez with (0 - Z.of_nat (Z.to_nat (- ez))) at 2 by lia.
      apply binary_round_shift.
      * apply fexp_small; lia.
      * apply fexp_range; lia.
Qed.

Lemma binary_normalize_repr S ez n :
  -52 <= ez <= 1 -> Z.abs n <= 2 ^ 53 ->
  S * 2 ^ (ez + 52) = n * 2 ^ 52 ->
  binary_normalize prec emax S ez false = of_Z n.
Proof.
  intros Hez Hn Hv. unfold of_Z.
  assert (0 < 2 ^ (ez + 52)) by (apply Z.pow_pos_nonneg; lia).
  assert (0 < 2 ^ 52) by reflexivity.
  destruct n as [|pn|pn], S as [|ps|ps]; try nia.
  - reflexivity.
  - cbn [binary_normalize]. apply binary_round_repr; [assumption|lia|assumption].
  - cbn [binary_normalize]. apply binary_round_repr; [assumption|lia|].
    rewrite <- !Pos2Z.opp_pos in Hv. lia.
Qed.

(** The double of a positive integer up to [2^53]: its mantissa and
    exponent do not depend on the sign, and denote the integer. *)
Lemma binary_round_int pn :
  Z.pos pn <= 2 ^ 53 ->
  exists m e, (forall s, binary_round prec emax s pn 0 = S754_finite s m e)
              /\ -52 <= e <= 1 /\ Z.pos m * 2 ^ (e + 52) = Z.pos pn * 2 ^ 52.
Proof.
  intros Hn. destruct (Z.eq_dec (Z.pos pn) (2 ^ 53)) as [E|E].
  - apply Pos2Z.inj in E. subst pn. exists (2 ^ 52)%positive, 1.
    split; [intros []; reflexivity|]. split; [lia|reflexivity].
  - assert (Hd : Z.pos (digits2_pos pn) <= 53) by (apply digits2_pos_bound; lia).
    pose proof (fun s => binary_round_exact s pn 0 0) as H.
    cbn [shift_nat nat_rect] in H. change (Z.of_nat 0) with 0 in H. cbv zeta in H.
    rewrite ?Z.add_0_r, ?Z.add_0_l in H.
    assert (Ht : fexp prec emax (Z.pos (digits2_pos pn)) = Z.pos (digits2_pos pn) - 53).
    { unfold fexp, emin, prec, emax. lia. }
    rewrite Ht in H. pose proof (Pos2Z.is_pos (digits2_pos pn)) as Hpos.
    set (d := Z.pos (digits2_pos pn)) in *.
    eexists _, _. split; [intros s; apply H; unfold emax, prec; lia|].
    split; [lia|].
    rewrite shift_nat_correct, Zpower_nat_Z.
    set (k := Z.of_nat (Z.to_nat (0 - (d - 53)))).
    replace 52 with (k + (d - 53 + 52)) at 2 by lia.
    rewrite (Z.pow_add_r 2 k (d - 53 + 52)) by lia. ring.
Qed.

Lemma of_Z_repr a :
  a <> 0 -> Z.abs a <= 2 ^ 53 ->
  exists m e, of_Z a = S754_finite (a <? 0) m e
              /\ -52 <= e <= 1 /\ Z.pos m * 2 ^ (e + 52) = Z.abs a * 2 ^ 52.
Proof.
  intros Ha Hb. destruct a as [|pa|pa]; [congruence| |].
  - destruct (binary_round_int pa Hb) as (m & e & H & ?). exists m, e. split; [apply H|assumption].
  - destruct (binary_round_int pa Hb) as (m & e & H & ?). exists m, e. split; [apply H|assumption].
Qed.

(** Alignment to a smaller exponent keeps the value. *)
Lemma shl_align_value m e ez :
  -52 <= ez <= e ->
  Z.pos (fst (shl_align m e ez)) * 2 ^ (ez + 52) = Z.pos m * 2 ^ (e + 52).
Proof.
  intros H. replace ez with (e - Z.of_nat (Z.to_nat (e - ez))) at 1 by lia.
  rewrite shl_align_nat. cbn [fst]. rewrite shift_nat_correct, Zpower_nat_Z.
  set (k := Z.of_nat (Z.to_nat (e - ez))).
  replace (e + 52) with (k + (ez + 52)) by lia.
  rewrite (Z.pow_add_r 2 k (ez + 52)) by lia. ring.
Qed.

Lemma cond_Zopp_abs a :
  cond_Zopp (a <? 0) (Z.abs a) = a.
Proof. unfold cond_Zopp. destruct (Z.ltb_spec a 0); lia. Qed.

Lemma of_Z_0 : of_Z 0 = S754_zero false.
Proof. reflexivity. Qed.

(** Addition of integer-valued doubles is exact up to [2^53]. *)
Lemma add_of_Z a b :
  Z.abs a <= 2 ^ 53 -> Z.abs b <= 2 ^ 53 -> Z.abs (a + b) <= 2 ^ 53 ->
  add (of_Z a) (of_Z b) = of_Z (a + b).
Proof.
  intros Ha Hb Hab.
  destruct (Z.eq_dec a 0) as [->|Ha0].
  { rewrite Z.add_0_l, of_Z_0. unfold add.
    destruct (Z.eq_dec b 0) as [->|Hb0]; [reflexivity|].
    destruct (of_Z_repr b Hb0 Hb) as (m & e & -> & _). reflexivity. }
  destruct (of_Z_repr a Ha0 Ha) as (ma & ea & Ea & Hea & Hva).
  destruct (Z.eq_dec b 0) as [->|Hb0].
  { rewrite Z.add_0_r, of_Z_0, Ea. reflexivity. }
  destruct (of_Z_repr b Hb0 Hb) as (mb & eb & Eb & Heb & Hvb).
  rewrite Ea, Eb. unfold add. cbn [SFadd]. cbv zeta.
  apply binary_normalize_repr; [lia|assumption|].
  rewrite Z.mul_add_distr_r.
  rewrite <- (cond_Zopp_abs a) at 2. rewrite <- (cond_Zopp_abs b) at 2.
  pose proof (shl_align_value ma ea (Z.min ea eb) ltac:(lia)) as Sa.
  pose proof (shl_align_value mb eb (Z.min ea eb) ltac:(lia)) as Sb.
  rewrite Hva in Sa. rewrite Hvb in Sb.
  unfold cond_Zopp. destruct (a <? 0), (b <? 0); lia.
Qed.

Lemma of_Z_opp b :
  b <> 0 -> Z.abs b <= 2 ^ 53 -> of_Z (- b) = SFopp (of_Z b).
Proof.
  intros Hb0 Hb. unfold of_Z.
  destruct b as [|pb|pb]; [congruence| |];
    [change (- Z.pos pb) with (Z.neg pb) | change (- Z.neg pb) with (Z.pos pb)];
    cbn [binary_normalize];
    destruct (binary_round_int pb Hb) as (m & e & H & _); rewrite !H; reflexivity.
Qed.

(** Subtraction of integer-valued doubles is exact up to [2^53]. *)
Lemma sub_of_Z a b :
  Z.abs a <= 2 ^ 53 -> Z.abs b <= 2 ^ 53 -> Z.abs (a - b) <= 2 ^ 53 ->
  b <> 0 ->
  sub (of_Z a) (of_Z b) = of_Z (a - b).
Proof.
  intros Ha Hb Hab Hb0.
  destruct (of_Z_repr b Hb0 Hb) as (mb & eb & Eb & Heb & Hvb).
  destruct (Z.eq_dec a 0) as [->|Ha0].
  { rewrite Z.sub_0_l, of_Z_opp, of_Z_0, Eb by assumption. reflexivity. }
  destruct (of_Z_repr a Ha0 Ha) as (ma & ea & Ea & Hea & Hva).
  rewrite Ea, Eb. unfold sub. cbn [SFsub]. cbv zeta.
  apply binary_normalize_repr; [lia|assumption|].
  rewrite Z.mul_sub_distr_r.
  rewrite <- (cond_Zopp_abs a) at 2. rewrite <- (cond_Zopp_abs b) at 2.
  pose proof (shl_align_value ma ea (Z.min ea eb) ltac:(lia)) as Sa.
  pose proof (shl_align_value mb eb (Z.min ea eb) ltac:(lia)) as Sb.
  rewrite Hva in Sa. rewrite Hvb in Sb.
  unfold cond_Zopp. destruct (a <? 0), (b <? 0); lia.
Qed.

(** Integers up to [2^53] in magnitude are representable. *)
Lemma to_Z_of_Z n : Z.abs n <= 2 ^ 53 -> to_Z (of_Z n) = Some n.
Proof.
  intros Hn. destruct (Z.eq_dec n 0) as [->|Hn0]; [reflexivity|].
  destruct (of_Z_repr n Hn0 Hn) as (m & e & -> & He & Hv).
  cbn [to_Z]. cbv zeta.
  assert (Hs : (if n <? 0 then Z.neg m else Z.pos m)
               = Z.sgn n * Z.pos m).
  { destruct (Z.ltb_spec n 0); [|assert (0 < n) by lia];
      destruct n; cbn [Z.sgn]; lia. }
  rewrite Hs. destruct (Z.leb_spec 0 e) as [H0|H0].
  - f_equal. rewrite (Z.pow_add_r 2 e 52) in Hv by lia.
    assert (Z.pos m * 2 ^ e = Z.abs n) by nia.
    rewrite <- Z.mul_assoc, H, Z.mul_comm. apply Z.abs_sgn.
  - set (k := - e) in *.
    assert (Hk : 2 ^ 52 = 2 ^ (e + 52) * 2 ^ k).
    { rewrite <- Z.pow_add_r by lia. f_equal. lia. }
    assert (0 < 2 ^ (e + 52)) by (apply Z.pow_pos_nonneg; lia).
    assert (0 < 2 ^ k) by (apply Z.pow_pos_nonneg; lia).
    assert (Hm : Z.pos m = Z.abs n * 2 ^ k) by (rewrite Hk in Hv; nia).
    rewrite Hm, Z.mod_mul by lia. cbn [Z.eqb].
    rewrite Z.mul_assoc, Z.div_mul by lia.
    f_equal. rewrite Z.mul_comm. apply Z.abs_sgn.
Qed.

End DoubleFacts.

(** * The model on concrete inputs *)

Example gauge_counts_to_two :
  Double.to_Z
    (GaugeVar.get
       (GaugeVar.apply_calls
          [GaugeVar.Increase; GaugeVar.Increase; GaugeVar.Decrease;
           GaugeVar.Increase]
          (GaugeVar.ctor "inflight" "")))
  = Some 2.
Proof. vm_compute. reflexivity. Qed.

Example gauge_below_zero :
  GaugeVar.get (GaugeVar.decrease (GaugeVar.ctor "inflight" ""))
  = Double.of_Z (-1).
Proof. vm_compute. reflexivity. Qed.

Example local_add_twice :
  RPCVarLocal.vars
    (RPCVarLocal.add "qps" 2%positive
       (RPCVarLocal.add "qps" 1%positive {| RPCVarLocal.vars := ∅ |}))
  !! "qps" = Some 1%positive.
Proof. vm_compute. reflexivity. Qed.

Example two_threads_register :
  RPCVarGlobal.local_vars
    (global (construct_locals [5%positive; 9%positive] process_start))
  = [5%positive; 9%positive].
Proof. reflexivity. Qed.

(** * Counting calls *)

Lemma count_increase_app cs1 cs2 :
  GaugeVar.count_increase (cs1 ++ cs2)
  = GaugeVar.count_increase cs1 + GaugeVar.count_increase cs2.
Proof.
  induction cs1 as [|[] cs1 IH]; cbn [app GaugeVar.count_increase]; lia.
Qed.

Lemma count_decrease_app cs1 cs2 :
  GaugeVar.count_decrease (cs1 ++ cs2)
  = GaugeVar.count_decrease cs1 + GaugeVar.count_decrease cs2.
Proof.
  induction cs1 as [|[] cs1 IH]; cbn [app GaugeVar.count_decrease]; lia.
Qed.

Lemma count_calls_length cs :
  0 <= GaugeVar.count_increase cs /\ 0 <= GaugeVar.count_decrease cs
  /\ GaugeVar.count_increase cs + GaugeVar.count_decrease cs
     = Z.of_nat (length cs).
Proof.
  induction cs as [|[] cs IH];
    cbn [GaugeVar.count_increase GaugeVar.count_decrease length];
    rewrite ?Nat2Z.inj_succ; lia.
Qed.

Lemma all_calls_cons s ss : all_calls (s :: ss) = shard_calls s ++ all_calls ss.
Proof. reflexivity. Qed.

Lemma all_calls_perm ss ss' :
  ss ≡ₚ ss' ->
  GaugeVar.count_increase (all_calls ss) = GaugeVar.count_increase (all_calls ss')
  /\ GaugeVar.count_decrease (all_calls ss) = GaugeVar.count_decrease (all_calls ss')
  /\ length (all_calls ss) = length (all_calls ss').
Proof.
  induction 1 as [|s ss ss' _ IH|s1 s2 ss|ss1 ss2 ss3 _ IH1 _ IH2];
    rewrite ?all_calls_cons, ?count_increase_app, ?count_decrease_app,
      ?length_app; lia.
Qed.

(** * Gauges that only count *)

Lemma apply_calls_base cs g :
  GaugeVar.base (GaugeVar.apply_calls cs g) = GaugeVar.base g.
Proof.
  unfold GaugeVar.apply_calls. revert g.
  induction cs as [|c cs IH]; intros g; [reflexivity|].
  cbn [fold_left]. rewrite IH. destruct c; reflexivity.
Qed.

Lemma apply_calls_data cs : forall g v,
  GaugeVar.data g = Double.of_Z v ->
  Z.abs v + Z.of_nat (length cs) <= 2 ^ 53 ->
  GaugeVar.data (GaugeVar.apply_calls cs g)
  = Double.of_Z (v + GaugeVar.count_increase cs - GaugeVar.count_decrease cs).
Proof.
  unfold GaugeVar.apply_calls.
  induction cs as [|c cs IH]; intros g v Hg Hb.
  - cbn [fold_left GaugeVar.count_increase GaugeVar.count_decrease].
    rewrite Hg. f_equal. lia.
  - cbn [fold_left]. cbn [length] in Hb. rewrite Nat2Z.inj_succ in Hb.
    destruct c; cbn [GaugeVar.apply_call GaugeVar.count_increase
                       GaugeVar.count_decrease].
    + rewrite (IH _ (v + 1)); [f_equal; lia| |lia].
      cbn [GaugeVar.increase GaugeVar.data]. rewrite Hg.
      apply DoubleFacts.add_of_Z; change (Z.abs 1) with 1; lia.
    + rewrite (IH _ (v - 1)); [f_equal; lia| |lia].
      cbn [GaugeVar.decrease GaugeVar.data]. rewrite Hg.
      apply DoubleFacts.sub_of_Z; change (Z.abs 1) with 1; lia.
Qed.

Lemma shard_gauge_data s :
  Z.of_nat (length (shard_calls s)) <= 2 ^ 53 ->
  GaugeVar.data (shard_gauge s)
  = Double.of_Z (GaugeVar.count_increase (shard_calls s)
                 - GaugeVar.count_decrease (shard_calls s)).
Proof.
  intros Hb. unfold shard_gauge.
  rewrite (apply_calls_data _ _ 0); [f_equal; lia|reflexivity|].
  change (Z.abs 0) with 0. lia.
Qed.

Lemma reduce_all_data ss : forall acc v,
  GaugeVar.data acc = Double.of_Z v ->
  Z.abs v + Z.of_nat (length (all_calls ss)) <= 2 ^ 53 ->
  GaugeVar.data (reduce_all acc (map shard_gauge ss))
  = Double.of_Z (v + GaugeVar.count_increase (all_calls ss)
                 - GaugeVar.count_decrease (all_calls ss)).
Proof.
  unfold reduce_all.
  induction ss as [|s ss IH]; intros acc v Hacc Hb.
  - cbn. rewrite Hacc. f_equal. lia.
  - rewrite all_calls_cons, length_app, Nat2Z.inj_add in Hb.
    rewrite all_calls_cons, count_increase_app, count_decrease_app.
    cbn [map fold_left].
    pose proof (count_calls_length (shard_calls s)) as (Hi & Hd & Hl).
    set (w := GaugeVar.count_increase (shard_calls s)
              - GaugeVar.count_decrease (shard_calls s)).
    rewrite (IH _ (v + w)); [f_equal; lia| |lia].
    unfold reduce_into, GaugeVar.reduce, GaugeVar.get_data. cbn [snd GaugeVar.data].
    rewrite Hacc, shard_gauge_data by lia.
    apply DoubleFacts.add_of_Z; lia.
Qed.

(** * Properties of [GaugeVar] *)

(** C9.  A freshly constructed gauge holds zero: before any [increase],
    [decrease], [set] or [reduce], [get()] returns the double [+0.0], which
    denotes the integer 0; its kind is [VAR_GAUGE] and its name and help
    are the constructor's arguments. *)
Theorem gauge_ctor_zero (name help : string) :
  GaugeVar.get (GaugeVar.ctor name help) = S754_zero false
  /\ GaugeVar.get (GaugeVar.ctor name help) = Double.of_Z 0
  /\ Double.to_Z (GaugeVar.get (GaugeVar.ctor name help)) = Some 0
  /\ GaugeVar.get_type (GaugeVar.ctor name help) = VAR_GAUGE
  /\ GaugeVar.get_name (GaugeVar.ctor name help) = name
  /\ GaugeVar.get_help (GaugeVar.ctor name help) = help.
Proof.
  unfold GaugeVar.get, GaugeVar.ctor; cbn [GaugeVar.data].
  rewrite DoubleFacts.of_Z_0. repeat split.
Qed.

(** C10.  [set] then [get] round-trips: right after [g.set(v)], [g.get()]
    is exactly [v], whatever the gauge held before (a second [set]
    overwrites the first), and [set] touches nothing but the value. *)
Theorem gauge_set_get (g : GaugeVar.t) (v w : double) :
  GaugeVar.get (GaugeVar.set v g) = v
  /\ GaugeVar.get (GaugeVar.set v (GaugeVar.set w g)) = v
  /\ GaugeVar.set v (GaugeVar.set w g) = GaugeVar.set v g
  /\ GaugeVar.base (GaugeVar.set v g) = GaugeVar.base g.
Proof.
  destruct g as [b d]. unfold GaugeVar.get, GaugeVar.set.
  cbn [GaugeVar.data GaugeVar.base]. auto.
Qed.

(** C1.  [GaugeVar::reduce] is a sum merge.  For every gauge [g], every
    double [d] read through the payload pointer and every size argument,
    [reduce] returns [true] and leaves the gauge holding the old value plus
    [d], its name, help and kind untouched.  On integer values in the exact
    range of a double the sum is the integer sum.  The merge is not
    last-write-wins: a gauge holding 1 reduced with a payload of 2 holds 3,
    not 2. *)
Theorem reduce_adds_payload (g : GaugeVar.t) (d : double) (sz : N) :
  fst (GaugeVar.reduce d sz g) = true
  /\ GaugeVar.get (snd (GaugeVar.reduce d sz g)) = Double.add (GaugeVar.get g) d
  /\ GaugeVar.base (snd (GaugeVar.reduce d sz g)) = GaugeVar.base g
  /\ (forall a b : Z,
        Z.abs a <= 2 ^ 53 -> Z.abs b <= 2 ^ 53 -> Z.abs (a + b) <= 2 ^ 53 ->
        GaugeVar.get g = Double.of_Z a -> d = Double.of_Z b ->
        GaugeVar.get (snd (GaugeVar.reduce d sz g)) = Double.of_Z (a + b))
  /\ (let one := GaugeVar.set (Double.of_Z 1) g in
      GaugeVar.get (snd (GaugeVar.reduce (Double.of_Z 2) sz one)) = Double.of_Z 3
      /\ GaugeVar.get (snd (GaugeVar.reduce (Double.of_Z 2) sz one)) <> Double.of_Z 2).
Proof.
  unfold GaugeVar.reduce, GaugeVar.get, GaugeVar.set.
  cbn [fst snd GaugeVar.data GaugeVar.base].
  split; [reflexivity|]. split; [reflexivity|]. split; [reflexivity|].
  split.
  - intros a b Ha Hb Hab -> ->. now apply DoubleFacts.add_of_Z.
  - split; [reflexivity|]. vm_compute. discriminate.
Qed.

(** C2, as the code has it.  [GaugeVar::reduce] does not look at its size
    argument: also for a size other than [sizeof(double)] it returns [true]
    and adds the pointed-to double to the stored value. *)
Theorem reduce_ignores_size (g : GaugeVar.t) (d : double) (sz : N) :
  sz <> GaugeVar.get_size g ->
  GaugeVar.reduce d sz g
  = (true, GaugeVar.set (Double.add (GaugeVar.get g) d) g).
Proof. intros _. reflexivity. Qed.

Lemma reduce_ignores_size_witness :
  4%N <> GaugeVar.get_size (GaugeVar.ctor "requests" "")
  /\ GaugeVar.reduce (Double.of_Z 1) 4 (GaugeVar.ctor "requests" "")
     = (true, GaugeVar.set
                (Double.add (GaugeVar.get (GaugeVar.ctor "requests" ""))
                   (Double.of_Z 1))
                (GaugeVar.ctor "requests" "")).
Proof.
  split; [discriminate|].
  apply (reduce_ignores_size (GaugeVar.ctor "requests" "") (Double.of_Z 1) 4).
  discriminate.
Defined.

(** C2, as stated, fails: a fresh gauge reduced with a payload of 1 and the
    size 4, which is not [sizeof(double)], answers [true] and now holds 1;
    it neither answers [false] nor keeps its state. *)
Lemma reduce_wrong_size_counterexample :
  let g := GaugeVar.ctor "requests" "" in
  let r := GaugeVar.reduce (Double.of_Z 1) 4 g in
  4%N <> GaugeVar.get_size g
  /\ fst r = true
  /\ fst r <> false
  /\ GaugeVar.get (snd r) = Double.of_Z 1
  /\ snd r <> g.
Proof.
  cbv zeta. split; [discriminate|]. split; [reflexivity|].
  split; [discriminate|]. split; [reflexivity|]. vm_compute. discriminate.
Qed.

(** * Aggregation across threads *)

Lemma count_increase_repeat n :
  GaugeVar.count_increase (repeat GaugeVar.Increase n) = Z.of_nat n
  /\ GaugeVar.count_decrease (repeat GaugeVar.Increase n) = 0.
Proof.
  induction n as [|n [IHi IHd]]; [split; reflexivity|].
  cbn [repeat GaugeVar.count_increase GaugeVar.count_decrease].
  rewrite IHi, IHd, Nat2Z.inj_succ. lia.
Qed.

(** A gauge that has counted up to [2^53] stays there: [2^53 + 1] is not a
    double, and the tie rounds to the even mantissa. *)
Lemma increase_saturates n name help :
  Z.of_nat n = 2 ^ 53 ->
  GaugeVar.data
    (GaugeVar.apply_calls (repeat GaugeVar.Increase (S n))
       (GaugeVar.ctor name help))
  = Double.of_Z (2 ^ 53).
Proof.
  intros Hn. cbn [repeat]. rewrite repeat_cons.
  unfold GaugeVar.apply_calls. rewrite fold_left_app.
  fold (GaugeVar.apply_calls (repeat GaugeVar.Increase n) (GaugeVar.ctor name help)).
  cbn [fold_left GaugeVar.apply_call GaugeVar.increase GaugeVar.data].
  rewrite (apply_calls_data _ _ 0);
    [|reflexivity|rewrite repeat_length, Hn; reflexivity].
  destruct (count_increase_repeat n) as [-> ->]. rewrite Hn.
  vm_compute. reflexivity.
Qed.

Lemma saturated_shard n name help :
  Z.of_nat n = 2 ^ 53 ->
  let s := {| shard_name := name; shard_help := help;
              shard_calls := repeat GaugeVar.Increase (S n) |} in
  Double.to_Z (GaugeVar.get (reduce_all (GaugeVar.ctor name help) [shard_gauge s]))
  = Some (2 ^ 53)
  /\ GaugeVar.count_increase (all_calls [s])
     - GaugeVar.count_decrease (all_calls [s]) = 2 ^ 53 + 1.
Proof.
  intros Hn s. split.
  - unfold reduce_all, reduce_into, GaugeVar.reduce, GaugeVar.get, GaugeVar.get_data.
    cbn [fold_left snd GaugeVar.data].
    unfold shard_gauge, s. cbn [shard_calls shard_name shard_help].
    rewrite increase_saturates by assumption.
    vm_compute. reflexivity.
  - unfold all_calls, s. cbn [map concat shard_calls]. rewrite app_nil_r.
    destruct (count_increase_repeat (S n)) as [-> ->].
    rewrite Nat2Z.inj_succ, Hn. lia.
Qed.

(** C3, within the exact range of a double.  Take any number of gauges,
    each constructed and then driven by its own sequence of [increase()]
    and [decrease()] calls, with at most [2^53] calls in all.  Folding the
    gauges' data with [reduce] into a zero-valued gauge, in any order,
    yields exactly the number of [increase] calls minus the number of
    [decrease] calls. *)
Theorem aggregate_counts_exactly
    (ss : list shard) (gs : list GaugeVar.t) (name help : string) :
  gs ≡ₚ map shard_gauge ss ->
  Z.of_nat (length (all_calls ss)) <= 2 ^ 53 ->
  Double.to_Z (GaugeVar.get (reduce_all (GaugeVar.ctor name help) gs))
  = Some (GaugeVar.count_increase (all_calls ss)
          - GaugeVar.count_decrease (all_calls ss)).
Proof.
  intros Hperm Hb.
  apply Permutation_map_inv in Hperm as (ss' & -> & Hss).
  destruct (all_calls_perm _ _ Hss) as (Hi & Hd & Hl).
  rewrite Hi, Hd. rewrite Hl in Hb.
  unfold GaugeVar.get.
  rewrite (reduce_all_data ss' _ 0); [|reflexivity|change (Z.abs 0) with 0; lia].
  rewrite Z.add_0_l.
  pose proof (count_calls_length (all_calls ss')) as (? & ? & ?).
  apply DoubleFacts.to_Z_of_Z. lia.
Qed.

Lemma aggregate_counts_exactly_witness :
  let s1 := {| shard_name := "inflight"; shard_help := "";
               shard_calls := [GaugeVar.Increase; GaugeVar.Increase;
                               GaugeVar.Decrease] |} in
  let s2 := {| shard_name := "inflight"; shard_help := "";
               shard_calls := [GaugeVar.Decrease; GaugeVar.Decrease;
                               GaugeVar.Increase; GaugeVar.Decrease] |} in
  Double.to_Z
    (GaugeVar.get
       (reduce_all (GaugeVar.ctor "inflight" "")
          [shard_gauge s2; shard_gauge s1]))
  = Some (GaugeVar.count_increase (all_calls [s1; s2])
          - GaugeVar.count_decrease (all_calls [s1; s2])).
Proof.
  intros s1 s2.
  apply (aggregate_counts_exactly [s1; s2] [shard_gauge s2; shard_gauge s1]).
  - apply perm_swap.
  - vm_compute. discriminate.
Defined.

(** C3, as stated for every sequence, fails beyond the exact range: one
    gauge that receives [2^53 + 1] calls of [increase()] and none of
    [decrease()] aggregates to [2^53]. *)
Lemma aggregate_saturates_counterexample :
  let s := {| shard_name := "hits"; shard_help := "";
              shard_calls :=
                repeat GaugeVar.Increase (S (Z.to_nat (2 ^ 53))) |} in
  Double.to_Z (GaugeVar.get (reduce_all (GaugeVar.ctor "hits" "") [shard_gauge s]))
  = Some (2 ^ 53)
  /\ GaugeVar.count_increase (all_calls [s])
     - GaugeVar.count_decrease (all_calls [s]) = 2 ^ 53 + 1.
Proof.
  apply (saturated_shard (Z.to_nat (2 ^ 53)) "hits" "").
  apply Z2Nat.id. apply Z.pow_nonneg. lia.
Qed.

(** * The collector protocol *)

(** C6.  Collecting a gauge makes exactly one collector call, namely
    [collect_gauge(this, value)]: whatever the collector, [collect] is that
    one method applied to the gauge's address and value, and a recording
    collector ends with that single entry appended to its log.  A gauge
    holding 3.5 shown to an empty recording collector leaves the log
    [collect_gauge(this, 3.5)] and nothing else. *)
Theorem gauge_collect_single_call (this : addr) (g : GaugeVar.t) (log : call_log) :
  GaugeVar.collect this g log = log ++ [Call_gauge this (GaugeVar.get g)]
  /\ length (GaugeVar.collect this g log) = S (length log)
  /\ (forall (C : Type) (impl : RPCVarCollector C) (c : C),
        GaugeVar.collect this g c = collect_gauge this (GaugeVar.get g) c)
  /\ GaugeVar.collect this (GaugeVar.set (Double.of_scaled 7 (-1)) g) []
     = [Call_gauge this (Double.of_scaled 7 (-1))].
Proof.
  unfold GaugeVar.collect, GaugeVar.get, GaugeVar.set.
  cbn [GaugeVar.data collect_gauge recording_collector].
  split; [reflexivity|]. split; [|split; [reflexivity|reflexivity]].
  rewrite length_app. cbn [length]. lia.
Qed.

(** The literal 3.5 of the embedding: [7 * 2^-1], whose double is 7. *)
Lemma three_and_a_half :
  Double.of_scaled 7 (-1) = S754_finite false 7881299347898368 (-51)
  /\ Double.add (Double.of_scaled 7 (-1)) (Double.of_scaled 7 (-1))
     = Double.of_Z 7.
Proof. split; vm_compute; reflexivity. Qed.

(** * The kind tag and the name *)

Lemma run_step_base this c s :
  GaugeVar.base (ctx_gauge (run_step this c s)) = GaugeVar.base (ctx_gauge c).
Proof. destruct s as [[]|]; reflexivity. Qed.

Lemma run_steps_base this ss : forall c,
  GaugeVar.base (ctx_gauge (run_steps this ss c)) = GaugeVar.base (ctx_gauge c).
Proof.
  unfold run_steps. induction ss as [|s ss IH]; intros c; [reflexivity|].
  cbn [fold_left]. rewrite IH. apply run_step_base.
Qed.

(** X16.  The kind and the name of a gauge are fixed at construction: after
    any sequence of [increase], [decrease], [set], [reduce], [collect] and
    registry [add] steps, [get_type()] and [get_name()] (and [get_help()])
    return what they returned before; for a gauge built by
    [GaugeVar(name, help)] they return [VAR_GAUGE] and [name]. *)
Theorem gauge_kind_and_name_fixed
    (this : addr) (ss : list gauge_step) (c : gauge_context)
    (name help : string) (log : call_log) (reg : RPCVarLocal.t) :
  (GaugeVar.get_type (ctx_gauge (run_steps this ss c))
     = GaugeVar.get_type (ctx_gauge c)
   /\ GaugeVar.get_name (ctx_gauge (run_steps this ss c))
      = GaugeVar.get_name (ctx_gauge c)
   /\ GaugeVar.get_help (ctx_gauge (run_steps this ss c))
      = GaugeVar.get_help (ctx_gauge c))
  /\ (let c0 := {| ctx_gauge := GaugeVar.ctor name help;
                   ctx_collector := log; ctx_local := reg |} in
      GaugeVar.get_type (ctx_gauge (run_steps this ss c0)) = VAR_GAUGE
      /\ GaugeVar.get_name (ctx_gauge (run_steps this ss c0)) = name).
Proof.
  unfold GaugeVar.get_type, GaugeVar.get_name, GaugeVar.get_help.
  cbv zeta. rewrite !run_steps_base. repeat split.
Qed.

(** * The registries *)

(** C4.  [RPCVarLocal::add] is first-writer-wins.  If [name] is already
    mapped to [v], the registry is left as it is: it still maps [name] to
    [v], and [w] is not stored under [name].  If [name] is absent, the
    registry maps it to [w] afterwards.  Every other entry is unchanged. *)
Theorem local_add_first_writer_wins
    (l : RPCVarLocal.t) (name : string) (w : addr) :
  (forall v, RPCVarLocal.vars l !! name = Some v ->
     RPCVarLocal.vars (RPCVarLocal.add name w l) !! name = Some v
     /\ RPCVarLocal.add name w l = l)
  /\ (RPCVarLocal.vars l !! name = None ->
      RPCVarLocal.vars (RPCVarLocal.add name w l) !! name = Some w)
  /\ (forall other, other <> name ->
        RPCVarLocal.vars (RPCVarLocal.add name w l) !! other
        = RPCVarLocal.vars l !! other).
Proof.
  unfold RPCVarLocal.add, RPCVarLocal.unordered_map_insert.
  destruct (RPCVarLocal.vars l !! name) as [v0|] eqn:E.
  - split; [intros v [= <-]; split; [exact E|reflexivity]|].
    split; [discriminate|]. reflexivity.
  - split; [discriminate|]. cbn [RPCVarLocal.vars].
    split; [intros _; apply lookup_insert_eq|].
    intros other Hne. apply lookup_insert_ne. congruence.
Qed.

Lemma construct_locals_global ths : forall p,
  RPCVarGlobal.local_vars (global (construct_locals ths p))
  = RPCVarGlobal.local_vars (global p) ++ ths.
Proof.
  unfold construct_locals. induction ths as [|a ths IH]; intros p.
  - cbn [fold_left]. now rewrite app_nil_r.
  - cbn [fold_left]. rewrite IH.
    cbn [construct_local RPCVarLocal.ctor global RPCVarGlobal.add
           RPCVarGlobal.local_vars].
    now rewrite <- app_assoc.
Qed.

Lemma construct_locals_live ths : forall p a,
  is_Some (locals (construct_locals ths p) !! a) ->
  is_Some (locals p !! a) \/ a ∈ ths.
Proof.
  unfold construct_locals. induction ths as [|b ths IH]; intros p a H.
  - now left.
  - cbn [fold_left] in H. apply IH in H as [H|H].
    + cbn [construct_local RPCVarLocal.ctor locals] in H.
      destruct (decide (b = a)) as [->|Hne].
      * right. apply list_elem_of_here.
      * rewrite lookup_insert_ne in H by assumption. now left.
    + right. now apply list_elem_of_further.
Qed.

(** C8.  Constructing an [RPCVarLocal] registers it with the global
    registry: the constructor's only effect on [RPCVarGlobal] is
    [add(this)], which appends [this] at the end of [local_vars], so that
    right after construction the new registry is the last entry and the
    earlier entries are kept in order.  Starting from the empty global
    registry, after any sequence of constructions [local_vars] lists the
    constructed registries in construction order, and every live registry
    is among them. *)
Theorem local_ctor_registers (this : addr) (p : process) (ths : list addr) :
  snd (RPCVarLocal.ctor this (global p)) = RPCVarGlobal.add this (global p)
  /\ RPCVarGlobal.local_vars (global (construct_local p this))
     = RPCVarGlobal.local_vars (global p) ++ [this]
  /\ last (RPCVarGlobal.local_vars (global (construct_local p this))) = Some this
  /\ this ∈ RPCVarGlobal.local_vars (global (construct_local p this))
  /\ locals (construct_local p this) !! this = Some {| RPCVarLocal.vars := ∅ |}
  /\ RPCVarGlobal.local_vars (global (construct_locals ths process_start)) = ths
  /\ (forall a, is_Some (locals (construct_locals ths process_start) !! a) ->
        a ∈ RPCVarGlobal.local_vars (global (construct_locals ths process_start))).
Proof.
  split; [reflexivity|]. split; [reflexivity|].
  cbn [construct_local RPCVarLocal.ctor global locals RPCVarGlobal.add
         RPCVarGlobal.local_vars].
  split; [apply last_snoc|].
  split; [apply elem_of_app; right; apply list_elem_of_here|].
  split; [apply lookup_insert_eq|].
  rewrite construct_locals_global. cbn [process_start global
    RPCVarGlobal.kInstance RPCVarGlobal.local_vars app].
  split; [reflexivity|].
  intros a H. apply construct_locals_live in H as [H|H]; [|exact H].
  cbn [process_start locals] in H. rewrite lookup_empty in H.
  destruct H as [? [=]].
Qed.

(** * Facts about [double] arithmetic beyond the exact range

    Addition is commutative, NaN is absorbing, and adding or subtracting 1
    leaves a double of magnitude at least [2^54] as it is: the 1 lies below
    half a unit in the last place and is rounded away. *)

Module DoubleRounding.

Import Double.
Import DoubleFacts.

Lemma add_comm x y : add x y = add y x.
Proof.
  unfold add.
  destruct x as [[]|[]| |sx mx ex], y as [[]|[]| |sy my ey]; try reflexivity.
  cbn [SFadd]. cbv zeta. rewrite (Z.min_comm ey ex). f_equal. apply Z.add_comm.
Qed.

Lemma add_nan_l y : add S754_nan y = S754_nan.
Proof. reflexivity. Qed.

Lemma add_nan_r x : add x S754_nan = S754_nan.
Proof. destruct x as [[]|[]| |]; reflexivity. Qed.

Lemma sub_nan_l y : sub S754_nan y = S754_nan.
Proof. reflexivity. Qed.

Lemma of_Z_1 : of_Z 1 = S754_finite false 4503599627370496 (-52).
Proof. vm_compute. reflexivity. Qed.

Lemma shr_sticky k : forall q r0 s0,
  Nat.iter (S k) shr_1 (Build_shr_record (Z.pos (shift_nat (S k) q)) r0 s0)
  = Build_shr_record (Z.pos q) false (r0 || s0).
Proof.
  induction k as [|k IH]; intros q r0 s0.
  - reflexivity.
  - rewrite Nat.iter_succ_r.
    change (shift_nat (S (S k)) q) with (xO (shift_nat (S k) q)).
    cbn [shr_1]. rewrite IH. reflexivity.
Qed.

(** The magnitude [m * 2^e + 1], scaled by [2^52], rounds back to [m * 2^e]
    when [m] has 53 bits and [e >= 2]. *)
Lemma binary_round_absorbs_one s m (j : nat) :
  Z.pos (digits2_pos m) = 53 -> Z.of_nat (S (S j)) <= 971 ->
  binary_round prec emax s (shift_nat 52 (xI (shift_nat (S j) m))) (-52)
  = S754_finite s m (Z.of_nat (S (S j))).
Proof.
  intros Hd He. set (e := Z.of_nat (S (S j))) in *.
  assert (Hdig : Z.pos (digits2_pos (shift_nat 52 (xI (shift_nat (S j) m))))
                 = 53 + e + 52).
  { rewrite digits2_shift_nat. cbn [digits2_pos].
    rewrite Pos2Z.inj_succ, digits2_shift_nat, Hd. subst e. lia. }
  assert (Hf : fexp prec emax (53 + e) = e).
  { unfold fexp, emin, prec, emax. lia. }
  unfold binary_round. rewrite Hdig.
  replace (53 + e + 52 + -52) with (53 + e) by lia. rewrite Hf.
  unfold shl_align. destruct (e - -52) eqn:E; try lia.
  unfold binary_round_aux, shr_fexp. cbn [Zdigits2 shr_record_of_loc].
  rewrite Hdig. replace (53 + e + 52 + -52) with (53 + e) by lia. rewrite Hf.
  replace (e - -52) with (Z.of_nat (S (S j) + 52)) by lia.
  rewrite shr_nat, Nat.iter_add, shr_shift_nat, Nat.iter_succ_r.
  cbn [shr_1]. rewrite shr_sticky.
  cbn [orb shr_m loc_of_shr_record round_nearest_even Zdigits2 shr_record_of_loc].
  replace (-52 + Z.of_nat (S (S j) + 52)) with e by lia.
  rewrite Hd, Hf, Z.sub_diag. cbn [shr shr_m].
  apply Z.leb_le in He. unfold emax, prec. 
  change (1024 - 53) with 971. rewrite He. reflexivity.
Qed.

Lemma shift_nat_set_low k p :
  (shift_nat k (xO p) + shift_nat k 1)%positive = shift_nat k (xI p).
Proof.
  induction k as [|k IH]; [reflexivity|].
  change (shift_nat (S k) ?x) with (xO (shift_nat k x)).
  rewrite <- IH. reflexivity.
Qed.

(** The mantissa sum that [x + 1] and [x - 1] round, for [x = m * 2^e] with
    [e >= 2]. *)
Lemma aligned_plus_one m (j : nat) :
  (fst (shl_align m (Z.of_nat (S (S j))) (-52))
   + fst (shl_align 4503599627370496 (-52) (-52)))%positive
  = shift_nat 52 (xI (shift_nat (S j) m)).
Proof.
  replace (-52) with (Z.of_nat (S (S j)) - Z.of_nat (52 + S (S j))) at 1 by lia.
  rewrite shl_align_nat, shift_nat_add. cbn [fst].
  change (fst (shl_align 4503599627370496 (-52) (-52))) with (shift_nat 52 1).
  change (shift_nat (S (S j)) m) with (xO (shift_nat (S j) m)).
  apply shift_nat_set_low.
Qed.

Lemma canonical_large m e :
  valid_binary prec emax (S754_finite false m e) = true -> 2 <= e ->
  Z.pos (digits2_pos m) = 53 /\ e <= 971.
Proof.
  cbn [valid_binary]. unfold bounded, canonical_mantissa, fexp, emin, prec, emax.
  intros H He. apply andb_true_iff in H as [H1 H2].
  apply Z.eqb_eq in H1. apply Z.leb_le in H2. lia.
Qed.

Lemma add_one_absorbed m e :
  valid_binary prec emax (S754_finite false m e) = true -> 2 <= e ->
  add (S754_finite false m e) (of_Z 1) = S754_finite false m e.
Proof.
  intros Hv He. destruct (canonical_large m e Hv He) as [Hd Hmax].
  rewrite of_Z_1. unfold add. cbn [SFadd]. cbv zeta.
  rewrite Z.min_r by lia.
  assert (Hj : e = Z.of_nat (S (S (Z.to_nat (e - 2))))) by lia.
  rewrite Hj in Hmax |- *. set (j := Z.to_nat (e - 2)) in *.
  cbn [cond_Zopp]. rewrite <- Pos2Z.inj_add, aligned_plus_one.
  cbn [binary_normalize]. apply binary_round_absorbs_one; assumption.
Qed.

Lemma sub_one_absorbed m e :
  valid_binary prec emax (S754_finite true m e) = true -> 2 <= e ->
  sub (S754_finite true m e) (of_Z 1) = S754_finite true m e.
Proof.
  intros Hv He. destruct (canonical_large m e Hv He) as [Hd Hmax].
  rewrite of_Z_1. unfold sub. cbn [SFsub]. cbv zeta.
  rewrite Z.min_r by lia.
  assert (Hj : e = Z.of_nat (S (S (Z.to_nat (e - 2))))) by lia.
  rewrite Hj in Hmax |- *. set (j := Z.to_nat (e - 2)) in *.
  cbn [cond_Zopp]. rewrite <- Z.add_opp_r, <- Z.opp_add_distr, <- Pos2Z.inj_add, aligned_plus_one.
  rewrite Pos2Z.opp_pos.
  cbn [binary_normalize]. apply binary_round_absorbs_one; assumption.
Qed.

End DoubleRounding.

(** * Further properties of the kinds and the registries *)

#[local] Set Warnings "-clear-no-such-hyp".

(** X1.  [type_string] names the four kinds apart: two kinds have the same
    string only if they are the same kind, no kind is named by the empty
    string of the [default] branch, and [get_type_str] of a constructed
    variable is the string of the kind given to the constructor. *)
Theorem type_string_distinct (a b : RPCVarType) (name help : string) :
  (type_string a = type_string b <-> a = b)
  /\ type_string a <> ""
  /\ RPCVar.get_type_str (RPCVar.ctor name help a) = type_string a
  /\ RPCVar.get_type_str (GaugeVar.base (GaugeVar.ctor name help)) = "gauge".
Proof.
  split; [|split; [destruct a; discriminate|split; reflexivity]].
  split; [|intros ->; reflexivity].
  destruct a, b; (reflexivity || discriminate).
Qed.

Lemma local_add_lookup l name w k :
  RPCVarLocal.vars (RPCVarLocal.add name w l) !! k
  = match RPCVarLocal.vars l !! k with
    | Some v => Some v
    | None => if decide (name = k) then Some w else None
    end.
Proof.
  unfold RPCVarLocal.add, RPCVarLocal.unordered_map_insert.
  destruct (decide (name = k)) as [->|Hne].
  - destruct (RPCVarLocal.vars l !! k) as [v|] eqn:E; [now rewrite E|].
    cbn [RPCVarLocal.vars]. now rewrite lookup_insert_eq.
  - destruct (RPCVarLocal.vars l !! name) as [v|] eqn:E.
    + now destruct (RPCVarLocal.vars l !! k).
    + cbn [RPCVarLocal.vars]. rewrite lookup_insert_ne by assumption.
      now destruct (RPCVarLocal.vars l !! k).
Qed.

Lemma local_eq (l1 l2 : RPCVarLocal.t) :
  (forall k, RPCVarLocal.vars l1 !! k = RPCVarLocal.vars l2 !! k) -> l1 = l2.
Proof.
  destruct l1 as [m1], l2 as [m2]. cbn [RPCVarLocal.vars].
  intros H. f_equal. now apply map_eq.
Qed.

(** X2.  First-writer-wins holds along any sequence of [add] calls: after
    the calls, a name that was registered before them still has its old
    variable, and any other name has the variable of the first call of the
    sequence that carried it (none if no call did). *)
Theorem register_all_first_wins
    (es : list (string * addr)) (l : RPCVarLocal.t) (name : string) :
  RPCVarLocal.vars (register_all es l) !! name
  = match RPCVarLocal.vars l !! name with
    | Some v => Some v
    | None => first_binding name es
    end.
Proof.
  unfold register_all. revert l.
  induction es as [|[n v] es IH]; intros l; cbn [fold_left first_binding fst snd].
  - now destruct (RPCVarLocal.vars l !! name).
  - rewrite IH, local_add_lookup.
    destruct (RPCVarLocal.vars l !! name); [reflexivity|].
    now destruct (decide (n = name)).
Qed.

(** X3.  Registrations of different names commute, and registering a name
    a second time, with whatever variable, changes nothing. *)
Theorem local_add_commutes
    (l : RPCVarLocal.t) (n1 n2 : string) (v1 v2 w : addr) :
  n1 <> n2 ->
  RPCVarLocal.add n1 v1 (RPCVarLocal.add n2 v2 l)
  = RPCVarLocal.add n2 v2 (RPCVarLocal.add n1 v1 l)
  /\ RPCVarLocal.add n1 w (RPCVarLocal.add n1 v1 l) = RPCVarLocal.add n1 v1 l.
Proof.
  intros Hne. split; apply local_eq; intros k; rewrite !local_add_lookup;
    destruct (RPCVarLocal.vars l !! k); try reflexivity;
    repeat case_decide; congruence.
Qed.

Lemma local_add_commutes_witness :
  "qps" <> "latency"
  /\ (RPCVarLocal.add "qps" 1%positive
        (RPCVarLocal.add "latency" 2%positive {| RPCVarLocal.vars := ∅ |})
      = RPCVarLocal.add "latency" 2%positive
          (RPCVarLocal.add "qps" 1%positive {| RPCVarLocal.vars := ∅ |})
      /\ RPCVarLocal.add "qps" 3%positive
           (RPCVarLocal.add "qps" 1%positive {| RPCVarLocal.vars := ∅ |})
         = RPCVarLocal.add "qps" 1%positive {| RPCVarLocal.vars := ∅ |}).
Proof.
  split; [discriminate|].
  apply (local_add_commutes {| RPCVarLocal.vars := ∅ |} "qps" "latency").
  discriminate.
Defined.

Lemma local_add_dom l name w :
  dom (RPCVarLocal.vars (RPCVarLocal.add name w l))
  = dom (RPCVarLocal.vars l) ∪ {[name]}.
Proof.
  unfold RPCVarLocal.add, RPCVarLocal.unordered_map_insert.
  destruct (RPCVarLocal.vars l !! name) as [v|] eqn:E.
  - apply (elem_of_dom_2 (D := gset string)) in E. set_solver.
  - cbn [RPCVarLocal.vars]. rewrite dom_insert_L. set_solver.
Qed.

Lemma list_to_set_size (ns : list string) :
  (size (list_to_set (C := gset string) ns) <= length ns)%nat.
Proof.
  induction ns as [|n ns IH]; cbn [list_to_set length].
  - now rewrite size_empty.
  - rewrite size_union_alt, size_singleton.
    assert (size (list_to_set (C := gset string) ns ∖ {[n]})
            <= size (list_to_set (C := gset string) ns))%nat
      by (apply subseteq_size; set_solver).
    lia.
Qed.

(** X4.  [add] only ever grows the registry, by the names it is given: after
    any sequence of calls the registered names are the old ones together
    with the names of the sequence, so the registry has at most one entry
    per call more than before. *)
Theorem register_all_names (es : list (string * addr)) (l : RPCVarLocal.t) :
  dom (RPCVarLocal.vars (register_all es l))
  = dom (RPCVarLocal.vars l) ∪ list_to_set (map fst es)
  /\ (size (RPCVarLocal.vars l) <= size (RPCVarLocal.vars (register_all es l))
      <= size (RPCVarLocal.vars l) + length es)%nat.
Proof.
  assert (Hdom : dom (RPCVarLocal.vars (register_all es l))
                 = dom (RPCVarLocal.vars l) ∪ list_to_set (map fst es)).
  { unfold register_all. revert l.
    induction es as [|[n v] es IH]; intros l; cbn [fold_left map list_to_set fst snd].
    - set_solver.
    - rewrite IH, local_add_dom. set_solver. }
  split; [exact Hdom|].
  rewrite <- !size_dom, Hdom. split.
  - apply subseteq_size. set_solver.
  - rewrite size_union_alt.
    assert (size (list_to_set (C := gset string) (map fst es)
                  ∖ dom (RPCVarLocal.vars l)) <= length es)%nat; [|lia].
    transitivity (size (list_to_set (C := gset string) (map fst es)));
      [apply subseteq_size; set_solver|].
    etransitivity; [apply list_to_set_size|]. now rewrite length_map.
Qed.

(** * Further properties of [GaugeVar] *)

Lemma gauge_eq (g1 g2 : GaugeVar.t) :
  GaugeVar.base g1 = GaugeVar.base g2 -> GaugeVar.data g1 = GaugeVar.data g2 ->
  g1 = g2.
Proof. destruct g1, g2. cbn. now intros -> ->. Qed.

(** X5.  Within the exact range, [increase] and [decrease] undo each
    other: on a gauge holding an integer of magnitude below [2^53],
    [increase] then [decrease], and [decrease] then [increase], give the
    gauge back as it was. *)
Theorem increase_decrease_inverse (g : GaugeVar.t) (n : Z) :
  GaugeVar.get g = Double.of_Z n -> Z.abs n < 2 ^ 53 ->
  GaugeVar.decrease (GaugeVar.increase g) = g
  /\ GaugeVar.increase (GaugeVar.decrease g) = g.
Proof.
  unfold GaugeVar.get. intros Hg Hn.
  split; apply gauge_eq; try reflexivity;
    cbn [GaugeVar.increase GaugeVar.decrease GaugeVar.data]; rewrite Hg.
  - rewrite DoubleFacts.add_of_Z, DoubleFacts.sub_of_Z
      by (change (Z.abs 1) with 1; lia).
    f_equal. lia.
  - rewrite DoubleFacts.sub_of_Z, DoubleFacts.add_of_Z
      by (change (Z.abs 1) with 1; lia).
    f_equal. lia.
Qed.

Lemma increase_decrease_inverse_witness :
  let g := GaugeVar.set (Double.of_Z (-7)) (GaugeVar.ctor "inflight" "") in
  GaugeVar.decrease (GaugeVar.increase g) = g
  /\ GaugeVar.increase (GaugeVar.decrease g) = g.
Proof.
  intros g. apply (increase_decrease_inverse g (-7)); [reflexivity|].
  vm_compute. reflexivity.
Defined.

Lemma count_calls_perm cs cs' :
  cs ≡ₚ cs' ->
  GaugeVar.count_increase cs = GaugeVar.count_increase cs'
  /\ GaugeVar.count_decrease cs = GaugeVar.count_decrease cs'
  /\ length cs = length cs'.
Proof.
  induction 1 as [|c cs cs' _ IH|c1 c2 cs|cs1 cs2 cs3 _ IH1 _ IH2].
  - auto.
  - destruct c; cbn [GaugeVar.count_increase GaugeVar.count_decrease length]; lia.
  - destruct c1, c2;
      cbn [GaugeVar.count_increase GaugeVar.count_decrease length]; lia.
  - lia.
Qed.

(** X6.  Within the exact range the order of the calls on one gauge does
    not matter: on a gauge holding the integer [n], two sequences of
    [increase] and [decrease] calls that are permutations of each other
    leave the same gauge, and its value is [n] plus the number of
    [increase] calls minus the number of [decrease] calls. *)
Theorem calls_order_irrelevant
    (cs cs' : list GaugeVar.call) (g : GaugeVar.t) (n : Z) :
  cs ≡ₚ cs' -> GaugeVar.get g = Double.of_Z n ->
  Z.abs n + Z.of_nat (length cs) <= 2 ^ 53 ->
  GaugeVar.apply_calls cs' g = GaugeVar.apply_calls cs g
  /\ Double.to_Z (GaugeVar.get (GaugeVar.apply_calls cs g))
     = Some (n + GaugeVar.count_increase cs - GaugeVar.count_decrease cs).
Proof.
  unfold GaugeVar.get. intros Hp Hg Hb.
  destruct (count_calls_perm _ _ Hp) as (Hi & Hd & Hl).
  pose proof (count_calls_length cs) as (? & ? & ?).
  split.
  - apply gauge_eq; [now rewrite !apply_calls_base|].
    rewrite (apply_calls_data cs' g n), (apply_calls_data cs g n)
      by (assumption || lia).
    now rewrite Hi, Hd.
  - rewrite (apply_calls_data cs g n) by assumption.
    apply DoubleFacts.to_Z_of_Z. lia.
Qed.

Lemma calls_order_irrelevant_witness :
  let g := GaugeVar.ctor "inflight" "" in
  GaugeVar.apply_calls [GaugeVar.Decrease; GaugeVar.Increase; GaugeVar.Increase] g
  = GaugeVar.apply_calls [GaugeVar.Increase; GaugeVar.Increase; GaugeVar.Decrease] g
  /\ Double.to_Z
       (GaugeVar.get
          (GaugeVar.apply_calls
             [GaugeVar.Increase; GaugeVar.Increase; GaugeVar.Decrease] g))
     = Some (0 + GaugeVar.count_increase
                   [GaugeVar.Increase; GaugeVar.Increase; GaugeVar.Decrease]
             - GaugeVar.count_decrease
                 [GaugeVar.Increase; GaugeVar.Increase; GaugeVar.Decrease]).
Proof.
  intros g.
  apply (calls_order_irrelevant
           [GaugeVar.Increase; GaugeVar.Increase; GaugeVar.Decrease]
           [GaugeVar.Decrease; GaugeVar.Increase; GaugeVar.Increase] g 0).
  - symmetry.
    apply (Permutation_cons_append [GaugeVar.Increase; GaugeVar.Increase]).
  - reflexivity.
  - vm_compute. discriminate.
Defined.

Lemma run_step_nan this c s :
  is_set s = false -> GaugeVar.data (ctx_gauge c) = S754_nan ->
  GaugeVar.data (ctx_gauge (run_step this c s)) = S754_nan.
Proof.
  intros Hs Hc. destruct s as [[]|]; try discriminate Hs;
    cbn [run_step ctx_gauge GaugeVar.increase GaugeVar.decrease
           GaugeVar.reduce snd GaugeVar.data];
    rewrite ?Hc; reflexivity.
Qed.

(** X7.  NaN poisons a gauge.  Once a gauge holds NaN, no sequence of
    [increase], [decrease], [reduce], [collect] and registry [add] steps
    changes that: only [set] can.  And [reduce] with a NaN payload leaves
    any gauge holding NaN. *)
Theorem nan_is_absorbing (this : addr) (ss : list gauge_step) (c : gauge_context) :
  forallb (fun s => negb (is_set s)) ss = true ->
  GaugeVar.get (ctx_gauge c) = S754_nan ->
  GaugeVar.get (ctx_gauge (run_steps this ss c)) = S754_nan
  /\ (forall (g : GaugeVar.t) (sz : N),
        GaugeVar.get (snd (GaugeVar.reduce S754_nan sz g)) = S754_nan).
Proof.
  unfold GaugeVar.get, run_steps. intros Hss Hc. split.
  - revert c Hc. induction ss as [|s ss IH]; intros c Hc; [exact Hc|].
    cbn [forallb] in Hss. apply andb_true_iff in Hss as [Hs Hss].
    cbn [fold_left]. apply IH; [exact Hss|].
    apply run_step_nan; [|exact Hc]. now apply negb_true_iff.
  - intros g sz. cbn [GaugeVar.reduce snd GaugeVar.data].
    apply DoubleRounding.add_nan_r.
Qed.

Lemma nan_is_absorbing_witness :
  let c := {| ctx_gauge := GaugeVar.set S754_nan (GaugeVar.ctor "load" "");
              ctx_collector := []; ctx_local := {| RPCVarLocal.vars := ∅ |} |} in
  let ss := [Step_member GaugeVar.Op_increase;
             Step_member (GaugeVar.Op_reduce (Double.of_Z 5) 8);
             Step_member GaugeVar.Op_collect; Step_add "load";
             Step_member GaugeVar.Op_decrease] in
  GaugeVar.get (ctx_gauge (run_steps 1%positive ss c)) = S754_nan
  /\ (forall (g : GaugeVar.t) (sz : N),
        GaugeVar.get (snd (GaugeVar.reduce S754_nan sz g)) = S754_nan).
Proof.
  intros c ss. apply (nan_is_absorbing 1%positive ss c); reflexivity.
Defined.

(** X8.  An infinite gauge cannot be counted back: on a gauge holding
    [+inf] or [-inf], every sequence of [increase] and [decrease] calls
    leaves the gauge as it is, and a [reduce] with the opposite infinity
    turns it into NaN. *)
Theorem infinity_is_sticky (cs : list GaugeVar.call) (g : GaugeVar.t) (s : bool) :
  GaugeVar.get g = S754_infinity s ->
  GaugeVar.apply_calls cs g = g
  /\ (forall sz : N,
        GaugeVar.get (snd (GaugeVar.reduce (S754_infinity (negb s)) sz g))
        = S754_nan).
Proof.
  unfold GaugeVar.get. intros Hg. split.
  - unfold GaugeVar.apply_calls.
    induction cs as [|c cs IH]; [reflexivity|]. cbn [fold_left].
    replace (GaugeVar.apply_call g c) with g; [exact IH|].
    apply gauge_eq; [now destruct c|].
    destruct c; cbn [GaugeVar.apply_call GaugeVar.increase GaugeVar.decrease
                       GaugeVar.data];
      rewrite Hg, DoubleRounding.of_Z_1; reflexivity.
  - intros sz. cbn [GaugeVar.reduce snd GaugeVar.data]. rewrite Hg.
    now destruct s.
Qed.

Lemma infinity_is_sticky_witness :
  let g := GaugeVar.set (S754_infinity false) (GaugeVar.ctor "load" "") in
  GaugeVar.apply_calls [GaugeVar.Decrease; GaugeVar.Decrease; GaugeVar.Increase] g
  = g
  /\ (forall sz : N,
        GaugeVar.get (snd (GaugeVar.reduce (S754_infinity (negb false)) sz g))
        = S754_nan).
Proof.
  intros g.
  apply (infinity_is_sticky
           [GaugeVar.Decrease; GaugeVar.Decrease; GaugeVar.Increase] g false).
  reflexivity.
Defined.

(** X9.  Counting stalls above [2^54].  On a gauge holding a valid double
    [m * 2^e] with [e >= 2] (magnitude at least [2^54]), any number of
    [increase] calls leaves a positive gauge as it is, and any number of
    [decrease] calls leaves a negative gauge as it is: the 1 is rounded
    away each time. *)
Theorem counting_stalls
    (g : GaugeVar.t) (s : bool) (m : positive) (e : Z) (k : nat) :
  GaugeVar.get g = S754_finite s m e ->
  valid_binary Double.prec Double.emax (GaugeVar.get g) = true ->
  2 <= e ->
  GaugeVar.apply_calls
    (repeat (if s then GaugeVar.Decrease else GaugeVar.Increase) k) g
  = g.
Proof.
  unfold GaugeVar.get. intros Hg Hv He. rewrite Hg in Hv.
  unfold GaugeVar.apply_calls.
  induction k as [|k IH]; [reflexivity|]. cbn [repeat fold_left].
  match goal with
  | |- fold_left _ _ ?g' = _ => replace g' with g; [exact IH|]
  end.
  apply gauge_eq; [now destruct s|].
  destruct s; cbn [GaugeVar.apply_call GaugeVar.increase GaugeVar.decrease
                     GaugeVar.data]; rewrite Hg; symmetry.
  - now apply DoubleRounding.sub_one_absorbed.
  - now apply DoubleRounding.add_one_absorbed.
Qed.

Lemma counting_stalls_witness :
  let g := GaugeVar.set (Double.of_Z (2 ^ 54)) (GaugeVar.ctor "hits" "") in
  GaugeVar.apply_calls (repeat GaugeVar.Increase 3) g = g.
Proof.
  intros g.
  apply (counting_stalls g false 4503599627370496 2 3);
    [vm_compute; reflexivity|vm_compute; reflexivity|lia].
Defined.

Lemma add_into_zero_comm (a b : double) :
  Double.add (Double.add (Double.of_Z 0) a) b
  = Double.add (Double.add (Double.of_Z 0) b) a.
Proof.
  rewrite DoubleFacts.of_Z_0.
  destruct a as [[]|[]| |sa ma ea], b as [[]|[]| |sb mb eb];
    try reflexivity.
  change (Double.add (S754_zero false) ?x) with x.
  apply DoubleRounding.add_comm.
Qed.

(** X10.  Merging two gauges is symmetric, whatever they hold (NaN,
    infinities and signed zeros included): [a.reduce(b's data)] and
    [b.reduce(a's data)] leave the same value, and folding two gauges into
    a fresh accumulator gives the same value in either order. *)
Theorem reduce_two_commutes (a b : GaugeVar.t) (name help : string) (sz sz' : N) :
  GaugeVar.get (snd (GaugeVar.reduce (GaugeVar.get_data b) sz a))
  = GaugeVar.get (snd (GaugeVar.reduce (GaugeVar.get_data a) sz' b))
  /\ GaugeVar.get (reduce_all (GaugeVar.ctor name help) [a; b])
     = GaugeVar.get (reduce_all (GaugeVar.ctor name help) [b; a]).
Proof.
  unfold reduce_all, reduce_into, GaugeVar.reduce, GaugeVar.get,
    GaugeVar.get_data.
  cbn [fold_left snd GaugeVar.data GaugeVar.ctor].
  split; [apply DoubleRounding.add_comm|apply add_into_zero_comm].
Qed.

(** X11.  A fresh accumulator copies the first gauge reduced into it, and
    reducing a fresh gauge into [g] leaves [g]'s value alone; the one
    exception is a negative zero, which comes out as [+0.0]. *)
Theorem fresh_accumulator_copies (g : GaugeVar.t) (name help : string) (sz : N) :
  GaugeVar.get (reduce_into (GaugeVar.ctor name help) g)
  = drop_zero_sign (GaugeVar.get g)
  /\ GaugeVar.get
       (snd (GaugeVar.reduce (GaugeVar.get_data (GaugeVar.ctor name help)) sz g))
     = drop_zero_sign (GaugeVar.get g)
  /\ (GaugeVar.get g <> S754_zero true ->
      drop_zero_sign (GaugeVar.get g) = GaugeVar.get g).
Proof.
  unfold reduce_into, GaugeVar.reduce, GaugeVar.get, GaugeVar.get_data.
  cbn [snd GaugeVar.data GaugeVar.ctor]. rewrite DoubleFacts.of_Z_0.
  destruct (GaugeVar.data g) as [[]|[]| |[] m e]; repeat split; congruence.
Qed.

Lemma Zsum_perm ws ws' :
  ws ≡ₚ ws' -> Zsum ws = Zsum ws' /\ Zsum_abs ws = Zsum_abs ws'.
Proof.
  unfold Zsum, Zsum_abs.
  induction 1 as [|w ws ws' _ IH|w1 w2 ws|ws1 ws2 ws3 _ IH1 _ IH2];
    cbn [fold_right]; lia.
Qed.

Lemma Zsum_bound ws : Z.abs (Zsum ws) <= Zsum_abs ws.
Proof.
  unfold Zsum, Zsum_abs. induction ws as [|w ws IH]; cbn [fold_right]; lia.
Qed.

Lemma reduce_all_integers_data gs : forall ws acc v,
  map GaugeVar.get gs = map Double.of_Z ws ->
  GaugeVar.data acc = Double.of_Z v ->
  Z.abs v + Zsum_abs ws <= 2 ^ 53 ->
  GaugeVar.data (reduce_all acc gs) = Double.of_Z (v + Zsum ws).
Proof.
  unfold reduce_all.
  induction gs as [|g gs IH]; intros [|w ws] acc v Hgs Hacc Hb;
    try discriminate Hgs.
  - cbn. rewrite Hacc. f_equal. lia.
  - cbn [map] in Hgs. injection Hgs as Hg Hgs.
    cbn [fold_left]. unfold Zsum, Zsum_abs in *. cbn [fold_right] in *.
    pose proof (Zsum_bound ws) as Hs. unfold Zsum, Zsum_abs in Hs.
    rewrite (IH ws _ (v + w)); [f_equal; lia|exact Hgs| |lia].
    unfold reduce_into, GaugeVar.reduce, GaugeVar.get_data.
    cbn [snd GaugeVar.data]. unfold GaugeVar.get in Hg. rewrite Hacc, Hg.
    apply DoubleFacts.add_of_Z; lia.
Qed.

(** X12.  The sum merge is exact and order-independent on integers, however
    the gauges got their values: if the gauges hold the integers [ws] and
    the magnitudes of [ws] add up to at most [2^53], folding the gauges,
    in any order, into a fresh accumulator yields exactly the sum of
    [ws]. *)
Theorem reduce_all_integers
    (gs gs' : list GaugeVar.t) (ws : list Z) (name help : string) :
  map GaugeVar.get gs = map Double.of_Z ws ->
  gs' ≡ₚ gs ->
  Zsum_abs ws <= 2 ^ 53 ->
  Double.to_Z (GaugeVar.get (reduce_all (GaugeVar.ctor name help) gs'))
  = Some (Zsum ws).
Proof.
  intros Hgs Hp Hb.
  apply (Permutation_map GaugeVar.get) in Hp. rewrite Hgs in Hp.
  apply Permutation_map_inv in Hp as (ws' & Hgs' & Hws).
  destruct (Zsum_perm _ _ Hws) as [Hs Ha]. rewrite Hs. rewrite Ha in Hb.
  unfold GaugeVar.get at 1.
  rewrite (reduce_all_integers_data gs' ws' _ 0);
    [|exact Hgs'|reflexivity|change (Z.abs 0) with 0; lia].
  rewrite Z.add_0_l. apply DoubleFacts.to_Z_of_Z.
  pose proof (Zsum_bound ws'). lia.
Qed.

Lemma reduce_all_integers_witness :
  let a := GaugeVar.set (Double.of_Z 1000) (GaugeVar.ctor "bytes" "") in
  let b := GaugeVar.set (Double.of_Z (-250)) (GaugeVar.ctor "bytes" "") in
  let c := GaugeVar.increase (GaugeVar.ctor "bytes" "") in
  Double.to_Z (GaugeVar.get (reduce_all (GaugeVar.ctor "bytes" "") [c; a; b]))
  = Some (Zsum [1000; -250; 1]).
Proof.
  intros a b c.
  apply (reduce_all_integers [a; b; c] [c; a; b] [1000; -250; 1]).
  - vm_compute. reflexivity.
  - apply (Permutation_cons_append [a; b]).
  - vm_compute. discriminate.
Defined.

(** X13.  Beyond the exact range the sum merge depends on the order: it
    is not true that every two orders of the same gauges reduce to the
    same value.  Gauges holding [2^53], 1 and 1 reduce to [2^53] in that
    order and to [2^53 + 2] with the two ones first. *)
Theorem reduce_all_order_matters :
  ~ (forall (acc : GaugeVar.t) (gs gs' : list GaugeVar.t),
       gs ≡ₚ gs' ->
       GaugeVar.get (reduce_all acc gs) = GaugeVar.get (reduce_all acc gs')).
Proof.
  intros H.
  set (z := GaugeVar.ctor "hits" "").
  set (big := GaugeVar.set (Double.of_Z (2 ^ 53)) z).
  set (one := GaugeVar.increase z).
  specialize (H z [big; one; one] [one; one; big]).
  assert (Hp : [big; one; one] ≡ₚ [one; one; big])
    by apply (Permutation_cons_append [one; one]).
  specialize (H Hp). vm_compute in H. discriminate H.
Qed.

(** * Further properties of the collector protocol *)

Lemma run_steps_log_shape (this : addr) (ss : list gauge_step) : forall c,
  exists vs : list double,
    ctx_collector (run_steps this ss c)
    = ctx_collector c ++ map (Call_gauge this) vs
    /\ length vs = length (List.filter is_collect ss).
Proof.
  unfold run_steps.
  induction ss as [|s ss IH]; intros c.
  - exists []. now rewrite app_nil_r.
  - cbn [fold_left]. destruct (IH (run_step this c s)) as (vs & Hlog & Hlen).
    destruct s as [[]|];
      try (exists vs; split; [exact Hlog|exact Hlen]).
    exists (GaugeVar.data (ctx_gauge c) :: vs). split.
    + rewrite Hlog. cbn [run_step ctx_collector GaugeVar.collect collect_gauge
                           recording_collector map].
      now rewrite <- app_assoc.
    + cbn [List.filter is_collect length]. now rewrite Hlen.
Qed.

(** X14.  Whatever is done with a gauge, the collector only ever hears
    [collect_gauge] for that gauge, with the value the gauge holds at that
    moment.  After any sequence of steps the recording collector's log is
    the old log followed by one [collect_gauge(this, v)] entry per
    [collect] step and nothing else; and the entry of each [collect] step
    carries the value [get()] returns after the steps before it.
    [increase], [decrease], [set], [reduce] and registry [add] make no
    collector call. *)
Theorem run_steps_log (this : addr) (ss : list gauge_step) (c : gauge_context) :
  (exists vs : list double,
     ctx_collector (run_steps this ss c)
     = ctx_collector c ++ map (Call_gauge this) vs
     /\ length vs = length (List.filter is_collect ss))
  /\ (forall pre post : list gauge_step,
        ss = pre ++ Step_member GaugeVar.Op_collect :: post ->
        ctx_collector (run_steps this ss c)
          !! (length (ctx_collector c) + length (List.filter is_collect pre))%nat
        = Some (Call_gauge this
                  (GaugeVar.get (ctx_gauge (run_steps this pre c))))).
Proof.
  split; [apply run_steps_log_shape|].
  intros pre post ->. unfold run_steps. rewrite fold_left_app. cbn [fold_left].
  fold (run_steps this pre c). set (c1 := run_steps this pre c).
  fold (run_steps this post (run_step this c1 (Step_member GaugeVar.Op_collect))).
  destruct (run_steps_log_shape this pre c) as (vs1 & Hlog1 & Hlen1).
  destruct (run_steps_log_shape this post
              (run_step this c1 (Step_member GaugeVar.Op_collect)))
    as (vs2 & Hlog2 & _).
  rewrite Hlog2.
  cbn [run_step ctx_collector GaugeVar.collect collect_gauge recording_collector].
  fold c1 in Hlog1. rewrite Hlog1, <- app_assoc. cbn [app].
  apply list_lookup_middle.
  now rewrite length_app, length_map, Hlen1.
Qed.

(** * Further properties of the process *)

Lemma count_occ_nodup (ths : list addr) (a : addr) :
  NoDup ths ->
  count_occ Pos.eq_dec ths a = if decide (a ∈ ths) then 1%nat else 0%nat.
Proof.
  induction 1 as [|x l Hx _ IH].
  - now rewrite decide_False by apply not_elem_of_nil.
  - cbn [count_occ]. destruct (Pos.eq_dec x a) as [->|Hne].
    + rewrite IH, decide_False by exact Hx.
      now rewrite decide_True by apply list_elem_of_here.
    + rewrite IH. destruct (decide (a ∈ l)) as [Hin|Hnin].
      * now rewrite decide_True by now apply list_elem_of_further.
      * rewrite decide_False; [reflexivity|].
        intros [?|?]%elem_of_cons; congruence.
Qed.

(** X15.  [RPCVarGlobal::add] neither drops nor merges entries.  After
    constructing registries at pairwise distinct addresses [ths], from any
    state of the process, an address occurs in [local_vars] as often as
    it did before, plus once if it is one of [ths]; from the empty global
    registry, [local_vars] lists exactly the constructed registries, each
    of them once. *)
Theorem constructed_listed_once (ths : list addr) (p : process) (a : addr) :
  NoDup ths ->
  count_occ Pos.eq_dec
    (RPCVarGlobal.local_vars (global (construct_locals ths p))) a
  = (count_occ Pos.eq_dec (RPCVarGlobal.local_vars (global p)) a
     + (if decide (a ∈ ths) then 1 else 0))%nat
  /\ count_occ Pos.eq_dec
       (RPCVarGlobal.local_vars (global (construct_locals ths process_start))) a
     = (if decide (a ∈ ths) then 1 else 0)%nat
  /\ (a ∈ RPCVarGlobal.local_vars (global (construct_locals ths process_start))
      <-> a ∈ ths)
  /\ NoDup (RPCVarGlobal.local_vars
              (global (construct_locals ths process_start))).
Proof.
  intros Hnd. rewrite !construct_locals_global, count_occ_app.
  cbn [process_start global RPCVarGlobal.kInstance RPCVarGlobal.local_vars app].
  pose proof (count_occ_nodup ths a Hnd) as Hc.
  rewrite Hc. repeat split; auto.
Qed.

Lemma constructed_listed_once_witness :
  NoDup [5%positive; 9%positive]
  /\ (count_occ Pos.eq_dec
        (RPCVarGlobal.local_vars
           (global (construct_locals [5%positive; 9%positive]
                      (construct_local process_start 9%positive))))
        9%positive
      = (count_occ Pos.eq_dec
           (RPCVarGlobal.local_vars
              (global (construct_local process_start 9%positive)))
           9%positive
         + (if decide (9%positive ∈ [5%positive; 9%positive]) then 1 else 0))%nat
      /\ count_occ Pos.eq_dec
           (RPCVarGlobal.local_vars
              (global (construct_locals [5%positive; 9%positive] process_start)))
           9%positive
         = (if decide (9%positive ∈ [5%positive; 9%positive]) then 1 else 0)%nat
      /\ (9%positive
            ∈ RPCVarGlobal.local_vars
                (global (construct_locals [5%positive; 9%positive] process_start))
          <-> 9%positive ∈ [5%positive; 9%positive])
      /\ NoDup (RPCVarGlobal.local_vars
                  (global (construct_locals [5%positive; 9%positive]
                             process_start)))).
Proof.
  assert (Hnd : NoDup [5%positive; 9%positive]).
  { apply NoDup_cons. split; [|apply NoDup_singleton].
    intros H%list_elem_of_singleton. discriminate H. }
  split; [exact Hnd|].
  apply (constructed_listed_once [5%positive; 9%positive]
           (construct_local process_start 9%positive) 9%positive Hnd).
Defined.

(** * The kind tag and the name, for every kind *)

Lemma run_var_steps_inv {V O A : Type}
    (member : O -> V -> V) (collect : addr -> V -> call_log -> call_log)
    (f : V -> A) (this : addr) (ss : list (var_step O)) :
  (forall o v, f (member o v) = f v) ->
  forall c, f (var_state (run_var_steps member collect this ss c))
            = f (var_state c).
Proof.
  intros Hf. unfold run_var_steps.
  induction ss as [|s ss IH]; intros c; [reflexivity|].
  cbn [fold_left]. rewrite IH. destruct s; cbn [run_var_step var_state]; auto.
Qed.

Lemma counter_apply_op_base child_name child_help o c :
  CounterVar.base (CounterVar.apply_op child_name child_help o c)
  = CounterVar.base c.
Proof.
  destruct o; cbn [CounterVar.apply_op]; try reflexivity.
  unfold CounterVar.add. now destruct (CounterVar.data c !! label_str).
Qed.

Lemma histogram_apply_op_base o h :
  HistogramVar.base (HistogramVar.apply_op o h) = HistogramVar.base h.
Proof.
  destruct o; cbn [HistogramVar.apply_op]; [reflexivity|].
  unfold HistogramVar.reduce.
  now destruct ((sz =? HistogramVar.get_size h)%N
                && (HistogramVar.get_size pointee =? HistogramVar.get_size h)%N).
Qed.

Lemma summary_apply_op_base (T : Type) (insert : Z -> double -> T -> T)
    (o : SummaryVar.op T) (s : SummaryVar.t T) :
  SummaryVar.base T (SummaryVar.apply_op T insert o s) = SummaryVar.base T s.
Proof.
  destruct o; cbn [SummaryVar.apply_op]; [reflexivity|].
  unfold SummaryVar.reduce.
  now destruct (sz =? SummaryVar.get_size T s)%N.
Qed.

(** C7.  The kind tag and the name of a metric variable never change after
    construction.  For each of the four kinds, after any sequence of its
    operations ([increase], [decrease], [set] on a gauge or on a counter's
    child, [CounterVar::add], [observe] on a histogram or a summary,
    [reduce], [collect]) and of [RPCVarLocal::add] of the variable,
    [get_type()] and [get_name()] return what they returned before the
    sequence; a constructed gauge or counter reports the kind and the name
    its constructor was given. *)
Theorem metric_kind_and_name_fixed (this : addr) (name help : string) :
  (forall (ss : list gauge_step) (c : gauge_context),
     GaugeVar.get_type (ctx_gauge (run_steps this ss c))
       = GaugeVar.get_type (ctx_gauge c)
     /\ GaugeVar.get_name (ctx_gauge (run_steps this ss c))
        = GaugeVar.get_name (ctx_gauge c))
  /\ (forall (child_name child_help : string -> string)
        (ss : list (var_step CounterVar.op)) (c : var_context CounterVar.t),
        let c' := run_var_steps (CounterVar.apply_op child_name child_help)
                    CounterVar.collect this ss c in
        CounterVar.get_type (var_state c') = CounterVar.get_type (var_state c)
        /\ CounterVar.get_name (var_state c')
           = CounterVar.get_name (var_state c))
  /\ (forall (ss : list (var_step HistogramVar.op))
        (c : var_context HistogramVar.t),
        let c' := run_var_steps HistogramVar.apply_op HistogramVar.collect
                    this ss c in
        HistogramVar.get_type (var_state c')
          = HistogramVar.get_type (var_state c)
        /\ HistogramVar.get_name (var_state c')
           = HistogramVar.get_name (var_state c))
  /\ (forall (T : Type) (insert : Z -> double -> T -> T)
        (get_quantile : SummaryVar.Quantile -> T -> double)
        (ss : list (var_step (SummaryVar.op T)))
        (c : var_context (SummaryVar.t T)),
        let c' := run_var_steps (SummaryVar.apply_op T insert)
                    (SummaryVar.collect T get_quantile) this ss c in
        SummaryVar.get_type T (var_state c')
          = SummaryVar.get_type T (var_state c)
        /\ SummaryVar.get_name T (var_state c')
           = SummaryVar.get_name T (var_state c))
  /\ (GaugeVar.get_type (GaugeVar.ctor name help) = VAR_GAUGE
      /\ GaugeVar.get_name (GaugeVar.ctor name help) = name
      /\ CounterVar.get_type (CounterVar.ctor name help) = VAR_COUNTER
      /\ CounterVar.get_name (CounterVar.ctor name help) = name).
Proof.
  split; [|split; [|split; [|split]]].
  - intros ss c. unfold GaugeVar.get_type, GaugeVar.get_name.
    now rewrite run_steps_base.
  - intros child_name child_help ss c c'. subst c'.
    unfold CounterVar.get_type, CounterVar.get_name.
    rewrite (run_var_steps_inv _ _ CounterVar.base);
      [split; reflexivity|apply counter_apply_op_base].
  - intros ss c c'. subst c'.
    unfold HistogramVar.get_type, HistogramVar.get_name.
    rewrite (run_var_steps_inv _ _ HistogramVar.base);
      [split; reflexivity|apply histogram_apply_op_base].
  - intros T insert get_quantile ss c c'. subst c'.
    unfold SummaryVar.get_type, SummaryVar.get_name.
    rewrite (run_var_steps_inv _ _ (SummaryVar.base T));
      [split; reflexivity|apply summary_apply_op_base].
  - repeat split.
Qed.
